(** * Frontmark reader: a shallow embedding of [frontmark/reader.py]

    The reader splits a document into a YAML front matter block and a
    Markdown body, loads the block with a loader whose tag handlers can be
    extended, renders the body and post-processes every metadata field.

    Conventions of the embedding:
    - a Python [str] is a list of code points ([list N]);
    - an exception is a value [Err e] of the [result] type, threaded with
      the bind notation of stdpp;
    - the collaborators that live outside the repository (the Markdown
      renderer, the YAML scanner/parser, [str.lower], the metadata hook of
      the host, the receivers of the registration signal) are the fields of
      a [Host] record over which the reader is parametrised;
    - a dict whose order matters ([OrderedDict], [dict.items()]) is an
      association list with Python's update-in-place/append-at-end rule,
      the table of YAML constructors is a [gmap];
    - the constructor of the reader mutates the settings object of its
      caller: it is modelled over a store of objects addressed by
      references. *)

From Stdlib Require Import NArith String Ascii.
From stdpp Require Import base option list gmap.

Set Warnings "-register-all".

Local Open Scope string_scope.
Local Open Scope N_scope.
Local Open Scope list_scope.

(** ** Text *)

Abbreviation str := (list N).

Fixpoint codes (s : string) : str :=
  match s with
  | EmptyString => []
  | String a s' => N_of_ascii a :: codes s'
  end.

(** Code points for which [str.isspace] holds; [str.strip()] removes them. *)
Definition is_space (c : N) : bool :=
  ((9 <=? c) && (c <=? 13)) || ((28 <=? c) && (c <=? 32))
  || (c =? 133) || (c =? 160) || (c =? 5760)
  || ((8192 <=? c) && (c <=? 8202))
  || (c =? 8232) || (c =? 8233) || (c =? 8239) || (c =? 8287) || (c =? 12288).

Fixpoint lstrip (s : str) : str :=
  match s with
  | [] => []
  | c :: s' => if is_space c then lstrip s' else s
  end.

Definition rstrip (s : str) : str := reverse (lstrip (reverse s)).

Definition strip (s : str) : str := rstrip (lstrip s).

Fixpoint startswith (s prefix : str) : bool :=
  match prefix, s with
  | [], _ => true
  | p :: prefix', c :: s' => (c =? p) && startswith s' prefix'
  | _ :: _, [] => false
  end.

(** ** The delimiter and the boundary pattern *)

Definition DELIMITER : str := codes "---".
Definition STR_TAG : str := codes "tag:yaml.org,2002:str".
Definition MAP_TAG : str := codes "tag:yaml.org,2002:map".
Definition SEQ_TAG : str := codes "tag:yaml.org,2002:seq".
Definition MD_TAG : str := codes "!md".

Definition NEWLINE : N := 10.

(** [BOUNDARY = re.compile('^---$', re.MULTILINE)].  [boundary_here text]
    is the part of a match that looks forward: the three delimiter
    characters, then the end of the text or a newline (multi-line [$]). *)
Definition boundary_here (text : str) : bool :=
  startswith text DELIMITER &&
  match drop 3 text with
  | [] => true
  | c :: _ => c =? NEWLINE
  end.

(** Offset of the leftmost match of [BOUNDARY] in [text]; [bol] tells
    whether the first position of [text] is at the start of the whole
    string or right after a newline (multi-line [^]). *)
Fixpoint find_boundary (bol : bool) (text : str) : option nat :=
  match text with
  | [] => None
  | c :: rest =>
      if bol && boundary_here text then Some 0%nat
      else S <$> find_boundary (c =? NEWLINE) rest
  end.

(** The segments of [text] cut at the leftmost non-overlapping matches of
    [BOUNDARY], with at most [splits] cuts.  The search resumes right
    after a match, where the previous character is a dash, hence not at
    the start of a line. *)
Fixpoint split_from (bol : bool) (splits : nat) (text : str) : list str :=
  match splits with
  | O => [text]
  | S n =>
      match find_boundary bol text with
      | None => [text]
      | Some i => take i text :: split_from false n (drop (i + 3) text)
      end
  end.

(** [BOUNDARY.split(text, maxsplit)]: at most [maxsplit] cuts when
    [maxsplit] is positive; [maxsplit = 0] is Python's "no limit", and a
    text has fewer matches than characters. *)
Definition BOUNDARY_split (text : str) (maxsplit : nat) : list str :=
  split_from true (match maxsplit with O => length text | _ => maxsplit end) text.

(** Where [BOUNDARY] matches.  Offset [i] starts a line when it is the
    start of the text ([bol]) or follows a newline; a delimiter line is a
    line that is exactly the delimiter. *)
Definition line_start (bol : bool) (text : str) (i : nat) : bool :=
  match i with
  | O => bol
  | S j => bool_decide (text !! j = Some NEWLINE)
  end.

Definition boundary_at_from (bol : bool) (text : str) (i : nat) : bool :=
  line_start bol text i && boundary_here (drop i text).

Definition delimiter_line (text : str) (i : nat) : Prop :=
  boundary_at_from true text i = true.

(** ** Exceptions *)

Inductive exn :=
  | AttributeError
  | TypeError
  | KeyError
  | ConstructorError
  | YAMLError (code : N)
  | HostError (code : N).

Inductive result (A : Type) :=
  | Ok (a : A)
  | Err (e : exn).
Arguments Ok {A} a.
Arguments Err {A} e.

#[global] Instance result_ret : MRet result := fun A a => Ok a.
#[global] Instance result_bind : MBind result := fun A B f m =>
  match m with
  | Ok a => f a
  | Err e => Err e
  end.
#[global] Instance result_fmap : FMap result := fun A B f m =>
  match m with
  | Ok a => Ok (f a)
  | Err e => Err e
  end.

(** Left-to-right traversal that stops at the first exception. *)
Fixpoint traverse {A B} (f : A → result B) (l : list A) : result (list B) :=
  match l with
  | [] => Ok []
  | a :: l' => b ← f a; bs ← traverse f l'; Ok (b :: bs)
  end.

(** ** Python values and YAML nodes *)

(** Hashable values, the keys of a dict ([KOther]: see [VOther]). *)
Inductive key :=
  | KNone
  | KStr (s : str)
  | KOther (o : N).

(** The values a document's metadata can hold.  [VOther o] stands for a
    number, a bool, a date or a time, named by an opaque code: an object
    that can be hashed and has none of the methods of [str].  What
    PyYAML builds for [!!binary], [!!set] and the [python/] tags (bytes,
    sets, arbitrary objects) is not among the values of the model. *)
Inductive value :=
  | VNone
  | VStr (s : str)
  | VOther (o : N)
  | VList (items : list value)
  | VDict (entries : list (key * value)).

#[global] Instance key_eq_dec : EqDecision key.
Proof. solve_decision. Defined.

(** [hash(v)]: of the values of the model, lists and dicts are
    unhashable. *)
Definition hashable (v : value) : result key :=
  match v with
  | VNone => Ok KNone
  | VStr s => Ok (KStr s)
  | VOther o => Ok (KOther o)
  | VList _ | VDict _ => Err TypeError
  end.

(** The representation graph PyYAML composes (anchors resolved). *)
Inductive node :=
  | ScalarNode (tag : str) (val : str) (style : option str)
  | SequenceNode (tag : str) (items : list node)
  | MappingNode (tag : str) (pairs : list (node * node)).

Definition node_tag (n : node) : str :=
  match n with
  | ScalarNode t _ _ | SequenceNode t _ | MappingNode t _ => t
  end.

(** A tag handler, called as [constructor(loader, node)]. *)
Abbreviation handler := (node → result value).

(** What a receiver of [frontmark_yaml_register] answers, when the
    answer has a length: a [(tag, handler)] pair, or something whose
    length is not two.  An answer without a length ([None] from a receiver
    that returns nothing) makes [len(pair)] raise; such answers are not
    in the type. *)
Inductive reply :=
  | RPair (tag : str) (constructor : handler)
  | RMalformed.

(** ** Ordered dicts *)

Section odict.
Context {K V : Type} `{EqDecision K}.

(** [d[k] = v]: an existing key keeps its place and takes the new value,
    a new key goes to the end. *)
Fixpoint od_set (k : K) (v : V) (d : list (K * V)) : list (K * V) :=
  match d with
  | [] => [(k, v)]
  | (k', v') :: d' =>
      if decide (k = k') then (k', v) :: d' else (k', v') :: od_set k v d'
  end.

Fixpoint od_get (k : K) (d : list (K * V)) : option V :=
  match d with
  | [] => None
  | (k', v') :: d' => if decide (k = k') then Some v' else od_get k d'
  end.

(** [OrderedDict(pairs)] for hashable keys. *)
Definition od_of_pairs (ps : list (K * V)) : list (K * V) :=
  fold_left (λ d p, od_set p.1 p.2 d) ps [].

Definition od_keys (d : list (K * V)) : list K := d.*1.
End odict.

(** Keys of a sequence in order of first appearance. *)
Fixpoint first_seen {K} `{EqDecision K} (l : list K) : list K :=
  match l with
  | [] => []
  | k :: l' => k :: filter (λ k', k' ≠ k) (first_seen l')
  end.

(** The value paired with the last occurrence of [k]. *)
Fixpoint last_value {K V} `{EqDecision K} (k : K) (ps : list (K * V)) : option V :=
  match ps with
  | [] => None
  | (k', v) :: ps' =>
      match last_value k ps' with
      | Some w => Some w
      | None => if decide (k = k') then Some v else None
      end
  end.

(** ** The host *)

Record Host := {
  (** [convert] of the [Markdown] instance that [read] builds from
      the MARKDOWN settings *)
  convert : str → str;
  (** [str.lower] *)
  lower : str → str;
  (** [BaseReader.process_metadata(name, value)], the per-field hook *)
  process_metadata : str → value → result value;
  (** scanning, parsing and composing of [yaml.load]: the root node of
      the document, [None] for an empty stream, or a syntax error *)
  compose : str → result (option node);
  (** the constructors [yaml.Loader] has for every tag other than
      [str], [map] and [seq] *)
  construct_builtin : node → result value;
  (** the answers to [frontmark_yaml_register.send(self)], in the order
      the signal (declared in [frontmark/signals.py]) delivers them *)
  registered : list reply;
  (** [settings['FORMATTED_FIELDS']] *)
  FORMATTED_FIELDS : list str;
  (** [settings.get('FRONTMARK_PARSE_LITERAL')], [None] when unset *)
  FRONTMARK_PARSE_LITERAL : option bool
}.

(** ** The YAML constructor *)

(** [loader.construct_scalar(node)] *)
Definition construct_scalar (n : node) : result str :=
  match n with
  | ScalarNode _ v _ => Ok v
  | _ => Err ConstructorError
  end.

Definition node_style (n : node) : option str :=
  match n with
  | ScalarNode _ _ st => st
  | _ => None
  end.

(** [OrderedDict(pairs)]: the keys are hashed as they are inserted. *)
Fixpoint OrderedDict (ps : list (value * value)) (d : list (key * value))
  : result (list (key * value)) :=
  match ps with
  | [] => Ok d
  | (k, v) :: ps' => k' ← hashable k; OrderedDict ps' (od_set k' v d)
  end.

(** [add_constructor(tag, constructor)] on the loader class: the table is
    a dict, an entry for the same tag is replaced. *)
Definition add_constructor (tag : str) (constructor : handler)
    (yaml_constructors : gmap str handler) : gmap str handler :=
  <[tag := constructor]> yaml_constructors.

(** [construct_pairs], [construct_sequence]: the children are built by
    [construct], the constructor of the loader. *)
Definition construct_pairs (construct : node → result value) (n : node)
  : result (list (value * value)) :=
  match n with
  | MappingNode _ pairs =>
      traverse (λ kv, k ← construct kv.1; v ← construct kv.2; Ok (k, v)) pairs
  | _ => Err ConstructorError
  end.

Definition construct_sequence (construct : node → result value) (n : node)
  : result (list value) :=
  match n with
  | SequenceNode _ items => traverse construct items
  | _ => Err ConstructorError
  end.

(** [FrontmarkLoader.construct_mapping]:
    [OrderedDict(self.construct_pairs(node))]. *)
Definition construct_mapping (construct : node → result value) (n : node)
  : result (list (key * value)) :=
  ps ← construct_pairs construct n; OrderedDict ps [].

Section constructor.
Variable host : Host.
(** The entries added to the table [FrontmarkLoader] inherits from
    [yaml.Loader]; the inherited entries are the default branches of
    [construct_object]. *)
Variable yaml_constructors : gmap str handler.

(** [construct_object]: the handler registered for the node's tag, else
    the inherited constructor ([construct_yaml_str], [construct_yaml_map]
    which calls [construct_mapping], [construct_yaml_seq], or one of the
    others). *)
Fixpoint construct_object (n : node) : result value :=
  match yaml_constructors !! node_tag n with
  | Some constructor => constructor n
  | None =>
      if decide (node_tag n = STR_TAG) then VStr <$> construct_scalar n
      else if decide (node_tag n = MAP_TAG) then
        VDict <$> construct_mapping construct_object n
      else if decide (node_tag n = SEQ_TAG) then
        VList <$> construct_sequence construct_object n
      else construct_builtin host n
  end.

(** [yaml.load(stream, Loader)] *)
Definition yaml_load (stream : str) : result value :=
  root ← compose host stream;
  match root with
  | Some n => construct_object n
  | None => Ok VNone
  end.
End constructor.

(** ** The reader *)

Section reader.
Variable host : Host.

Definition _render (text : value) : result str :=
  match text with
  | VStr s => Ok (convert host s)
  | _ => Err AttributeError
  end.

Definition yaml_markdown_constructor (n : node) : result value :=
  value ← construct_scalar n;
  rendered ← _render (VStr value);
  Ok (VStr (strip rendered)).

Definition yaml_multiline_as_markdown_constructor (n : node) : result value :=
  value ← construct_scalar n;
  if decide (node_style n = Some (codes "|")) then
    rendered ← _render (VStr value);
    Ok (VStr (strip rendered))
  else Ok (VStr value).

(** One step of the loop over the signal's answers. *)
Definition register_reply (t : gmap str handler) (pair : reply) : gmap str handler :=
  match pair with
  | RPair tag constructor => add_constructor tag constructor t
  | RMalformed => t
  end.

Definition loader_class : gmap str handler :=
  let t := add_constructor MD_TAG yaml_markdown_constructor ∅ in
  let t := if default true (FRONTMARK_PARSE_LITERAL host)
           then add_constructor STR_TAG yaml_multiline_as_markdown_constructor t
           else t in
  fold_left register_reply (registered host) t.

Definition _parse (text : str) : result (list (key * value) * str) :=
  let text := strip text in
  if negb (startswith text DELIMITER) then Ok ([], text)
  else
    match BOUNDARY_split text 2 with
    | [_; fm; content] =>
        metadata ← yaml_load host loader_class fm;
        let metadata := match metadata with VDict d => d | _ => [] end in
        Ok (metadata, content)
    | _ => Ok ([], text)
    end.

(** [name.lower()]: of the keys of the model, only a [str] has the
    method. *)
Definition key_lower (name : key) : result str :=
  match name with
  | KStr s => Ok (lower host s)
  | _ => Err AttributeError
  end.

(** The loop of [_parse_metadata] over [meta.items()], with the output
    built so far. *)
Fixpoint parse_metadata_loop (items : list (key * value))
    (output : list (str * value)) : result (list (str * value)) :=
  match items with
  | [] => Ok output
  | (name, value) :: items' =>
      name ← key_lower name;
      v ← (if bool_decide (name ∈ FORMATTED_FIELDS host) then
             rendered ← strip <$> _render value;
             process_metadata host name (VStr rendered)
           else process_metadata host name value);
      parse_metadata_loop items' (od_set name v output)
  end.

Definition _parse_metadata (meta : list (key * value)) : result (list (str * value)) :=
  parse_metadata_loop meta [].

(** [read], from the text [pelican_open] yields. *)
Definition read (text : str) : result (str * list (str * value)) :=
  '(metadata, content) ← _parse text;
  content ← _render (VStr content);
  meta ← _parse_metadata metadata;
  Ok (strip content, meta).
End reader.

(** The value one round of the loop of [_parse_metadata] assigns to
    [output[name]], and the pair it stores for an item of [meta]. *)
Definition field_value (host : Host) (name : str) (raw : value) : result value :=
  if bool_decide (name ∈ FORMATTED_FIELDS host) then
    rendered ← strip <$> _render host raw;
    process_metadata host name (VStr rendered)
  else process_metadata host name raw.

Definition field (host : Host) (item : key * value) : result (str * value) :=
  name ← key_lower host item.1;
  v ← field_value host name item.2;
  Ok (name, v).

(** The lower-cased names of the [str] keys of a mapping, in its order. *)
Definition lowered_keys (host : Host) (meta : list (key * value)) : list str :=
  omap (λ item, match item.1 with KStr s => Some (lower host s) | _ => None end) meta.

(** A pair of [construct_pairs] with its key hashed. *)
Definition hashed (p : value * value) : result (key * value) :=
  k ← hashable p.1; Ok (k, p.2).

(** One pass through the renderer, as every call site makes it: render,
    then trim; [passes b s] makes the pass when [b] holds. *)
Definition render_pass (host : Host) (s : str) : str := strip (convert host s).

Definition passes (host : Host) (b : bool) (s : str) : str :=
  if b then render_pass host s else s.

(** Whether the loader renders a scalar with tag [tag] and style [style]:
    the [!md] handler always does, the handler of the string tag does it
    for a literal block when FRONTMARK_PARSE_LITERAL is on. *)
Definition rendered_by_loader (host : Host) (tag : str) (style : option str) : bool :=
  bool_decide (tag = MD_TAG)
  || (bool_decide (tag = STR_TAG) && default true (FRONTMARK_PARSE_LITERAL host)
      && bool_decide (style = Some (codes "|"))).

(** The output value [v] of the field [name] comes from the source text
    [raw] through at most one pass of the renderer. *)
Definition rendered_at_most_once (host : Host) (name raw : str) (v : value) : Prop :=
  process_metadata host name (VStr raw) = Ok v ∨
  process_metadata host name (VStr (render_pass host raw)) = Ok v.

(** The calls of [add_constructor] that [loader_class] makes, in the
    order it makes them: the two built-in handlers, then one call for
    every well-formed answer to the signal. *)
Definition reply_pairs (rs : list reply) : list (str * handler) :=
  flat_map (λ r, match r with RPair tag c => [(tag, c)] | RMalformed => [] end) rs.

Definition builtin_registrations (host : Host) : list (str * handler) :=
  (MD_TAG, yaml_markdown_constructor host) ::
  (if default true (FRONTMARK_PARSE_LITERAL host)
   then [(STR_TAG, yaml_multiline_as_markdown_constructor host)] else []).

Definition registrations (host : Host) : list (str * handler) :=
  builtin_registrations host ++ reply_pairs (registered host).

(** Tags for which a collaborator contributed a handler. *)
Definition external_tags (host : Host) : list str :=
  (reply_pairs (registered host)).*1.

(** ** The constructor of the reader and the settings it is given

    [FrontmarkReader(settings)] keeps a reference to the settings dict of
    its caller ([BaseReader.__init__] stores it in [self.settings]) and
    updates the MARKDOWN entry through that reference.  Objects live in a
    store; a dict maps its keys to references. *)

Abbreviation ref := nat (only parsing).

Inductive obj :=
  | OList (items : list str)
  | ODict (entries : list (str * ref))
  | OOther (o : N).

Abbreviation store := (gmap ref obj).

(** A computation on the store; an exception leaves the writes made
    before it in place. *)
Definition M (A : Type) : Type := store → result A * store.

#[global] Instance M_ret : MRet M := λ A a σ, (Ok a, σ).
#[global] Instance M_bind : MBind M := λ A B f m σ,
  match m σ with
  | (Ok a, σ') => f a σ'
  | (Err e, σ') => (Err e, σ')
  end.

Definition MARKDOWN : str := codes "MARKDOWN".
Definition EXTENSION_CONFIGS : str := codes "extension_configs".
Definition EXTENSIONS : str := codes "extensions".
Definition META : str := codes "markdown.extensions.meta".

(** [d[k]] *)
Definition getitem (d : ref) (k : str) : M ref := λ σ,
  match σ !! d with
  | Some (ODict es) =>
      match od_get k es with
      | Some r => (Ok r, σ)
      | None => (Err KeyError, σ)
      end
  | _ => (Err TypeError, σ)
  end.

(** [d.setdefault(k, init)] with a freshly built [init] *)
Definition setdefault (d : ref) (k : str) (init : obj) : M ref := λ σ,
  match σ !! d with
  | Some (ODict es) =>
      match od_get k es with
      | Some r => (Ok r, σ)
      | None =>
          let r := fresh (dom σ) in
          (Ok r, <[d := ODict (od_set k r es)]> (<[r := init]> σ))
      end
  | _ => (Err AttributeError, σ)
  end.

(** [d.keys()] *)
Definition keys (d : ref) : M (list str) := λ σ,
  match σ !! d with
  | Some (ODict es) => (Ok (od_keys es), σ)
  | _ => (Err AttributeError, σ)
  end.

(** [x in c] *)
Definition contains (c : ref) (x : str) : M bool := λ σ,
  match σ !! c with
  | Some (OList xs) => (Ok (bool_decide (x ∈ xs)), σ)
  | Some (ODict es) => (Ok (bool_decide (x ∈ od_keys es)), σ)
  | _ => (Err TypeError, σ)
  end.

(** [l.append(x)] *)
Definition append (l : ref) (x : str) : M unit := λ σ,
  match σ !! l with
  | Some (OList xs) => (Ok (), <[l := OList (xs ++ [x])]> σ)
  | _ => (Err AttributeError, σ)
  end.

Fixpoint for_each {A} (l : list A) (body : A → M unit) : M unit :=
  match l with
  | [] => mret ()
  | a :: l' => _ ← body a; for_each l' body
  end.

Record FrontmarkReader := { settings : ref }.

Definition __init__ (caller_settings : ref) : M FrontmarkReader :=
  let self := {| settings := caller_settings |} in
  md ← getitem (settings self) MARKDOWN;
  _ ← setdefault md EXTENSION_CONFIGS (ODict []);
  _ ← setdefault md EXTENSIONS (OList []);
  configs ← getitem md EXTENSION_CONFIGS;
  names ← keys configs;
  _ ← for_each names (λ extension,
        exts ← getitem md EXTENSIONS;
        present ← contains exts extension;
        if (present : bool) then mret ()
        else exts ← getitem md EXTENSIONS; append exts extension);
  exts ← getitem md EXTENSIONS;
  present ← contains exts META;
  _ ← (if (present : bool) then mret ()
       else exts ← getitem md EXTENSIONS; append exts META);
  mret self.

(** What the caller reads back as [settings[MARKDOWN][k]]. *)
Definition markdown_entry (σ : store) (caller_settings : ref) (k : str) : option obj :=
  match σ !! caller_settings with
  | Some (ODict top) =>
      m ← od_get MARKDOWN top;
      match σ !! m with
      | Some (ODict md) => r ← od_get k md; σ !! r
      | _ => None
      end
  | _ => None
  end.

(** The extension list after normalisation: each name of [names] that is
    missing is appended in turn, then the meta extension. *)
Definition add_missing (x : str) (xs : list str) : list str :=
  if bool_decide (x ∈ xs) then xs else xs ++ [x].

Definition normalize_extensions (names : list str) (xs : list str) : list str :=
  add_missing META (fold_left (λ acc x, add_missing x acc) names xs).

(** ** A concrete host and documents, for running the reader *)

Fixpoint join_lines (ls : list string) : str :=
  match ls with
  | [] => []
  | [l] => codes l
  | l :: ls' => codes l ++ [NEWLINE] ++ join_lines ls'
  end.

(** A renderer that wraps its source in a paragraph element. *)
Definition paragraph (s : str) : str := codes "<p>" ++ s ++ codes "</p>".

(** [str.lower] on ASCII text. *)
Definition ascii_lower (s : str) : str :=
  (λ c, if (65 <=? c) && (c <=? 90) then c + 32 else c) <$> s.

Definition plain (s : string) : node := ScalarNode STR_TAG (codes s) None.
Definition literal (ls : list string) : node :=
  ScalarNode STR_TAG (join_lines ls ++ [NEWLINE]) (Some (codes "|")).

(** Front matter of the sample documents. *)
Definition fm_fields : str :=
  [NEWLINE] ++ join_lines ["Title: x"; "summary: |"; "  *hi*"; "note: _hi_"; "title: z"; ""].
Definition fm_scalar : str := [NEWLINE] ++ join_lines ["just text"; ""].
Definition fm_broken : str := [NEWLINE] ++ join_lines ["a: [1, 2"; ""].
Definition fm_tagged : str := [NEWLINE] ++ join_lines ["a: !md one"; "b: !up two"; ""].

(** The composer of the sample host: what PyYAML composes for the blocks
    above ([fm_broken] has an unclosed flow sequence, a syntax error) and
    for a block of spaces and line breaks, an empty stream.  It is a table
    for these blocks; no property below runs it on another one. *)
Definition sample_compose (fm : str) : result (option node) :=
  if decide (fm = fm_fields) then
    Ok (Some (MappingNode MAP_TAG
      [(plain "Title", plain "x");
       (plain "summary", literal ["*hi*"]);
       (plain "note", plain "_hi_");
       (plain "title", plain "z")]))
  else if decide (fm = fm_scalar) then Ok (Some (plain "just text"))
  else if decide (fm = fm_tagged) then
    Ok (Some (MappingNode MAP_TAG
      [(plain "a", ScalarNode MD_TAG (codes "one") None);
       (plain "b", ScalarNode (codes "!up") (codes "two") None)]))
  else if forallb (λ c, (c =? 32) || (c =? NEWLINE)) fm then Ok None
  else Err (YAMLError 0).

Definition sample_host (replies : list reply) (parse_literal : option bool) : Host :=
  {| convert := paragraph;
     lower := ascii_lower;
     process_metadata := λ _ v, Ok v;
     compose := sample_compose;
     construct_builtin := λ _, Err ConstructorError;
     registered := replies;
     FORMATTED_FIELDS := [codes "summary"];
     FRONTMARK_PARSE_LITERAL := parse_literal |}.

Definition doc_fields : str :=
  join_lines ["---"; "Title: x"; "summary: |"; "  *hi*"; "note: _hi_"; "title: z"; "---"; "hello"; "---"; "more"; ""].
Definition doc_plain : str := join_lines ["  hello"; "---"; "world "].
Definition doc_unclosed : str := join_lines ["---"; "a: 1"; "hello"].
Definition doc_scalar : str := join_lines ["---"; "just text"; "---"; "hello"].
Definition doc_empty_block : str := join_lines ["---"; "---"; "hello"].
Definition doc_broken : str := join_lines ["---"; "a: [1, 2"; "---"; "hello"].
Definition doc_tagged : str := join_lines ["---"; "a: !md one"; "b: !up two"; "---"; "hello"].

(** Two external handlers for the same tag. *)
Definition shout (n : node) : result value :=
  v ← construct_scalar n; Ok (VStr (v ++ codes "!")).
Definition whisper (n : node) : result value :=
  v ← construct_scalar n; Ok (VStr (codes "(" ++ v ++ codes ")")).

(** A settings object as pelican ships it: MARKDOWN has per-extension
    configuration and no list of extensions. *)
Definition sample_store : store :=
  {[ 0%nat := ODict [(MARKDOWN, 1%nat)];
     1%nat := ODict [(EXTENSION_CONFIGS, 2%nat); (codes "output_format", 3%nat)];
     2%nat := ODict [(codes "markdown.extensions.codehilite", 4%nat)];
     3%nat := OOther 0;
     4%nat := OOther 1 ]}.

(** A settings object that is already normalised. *)
Definition normal_store : store :=
  {[ 0%nat := ODict [(MARKDOWN, 1%nat)];
     1%nat := ODict [(EXTENSION_CONFIGS, 2%nat); (EXTENSIONS, 3%nat)];
     2%nat := ODict [(codes "markdown.extensions.codehilite", 4%nat)];
     3%nat := OList [codes "markdown.extensions.codehilite"; META];
     4%nat := OOther 1 ]}.

(** What the caller sees of the MARKDOWN settings: the names that have a
    configuration, and the enabled extensions. *)
Definition config_names (σ : store) (caller_settings : ref) : list str :=
  match markdown_entry σ caller_settings EXTENSION_CONFIGS with
  | Some (ODict es) => od_keys es
  | _ => []
  end.

Definition extension_list (σ : store) (caller_settings : ref) : list str :=
  match markdown_entry σ caller_settings EXTENSIONS with
  | Some (OList xs) => xs
  | _ => []
  end.

(** Settings the constructor accepts: a dict whose MARKDOWN entry is
    another dict, in which [extension_configs], when present, is a dict
    of its own and [extensions], when present, is a list. *)
Definition settings_ok (σ : store) (caller_settings : ref) : Prop :=
  ∃ top m md,
    σ !! caller_settings = Some (ODict top) ∧
    od_get MARKDOWN top = Some m ∧
    m ≠ caller_settings ∧
    σ !! m = Some (ODict md) ∧
    (∀ c, od_get EXTENSION_CONFIGS md = Some c → c ≠ m ∧ ∃ cfgs, σ !! c = Some (ODict cfgs)) ∧
    (∀ e, od_get EXTENSIONS md = Some e → ∃ xs, σ !! e = Some (OList xs)).

(** Nothing is left for the constructor to add. *)
Definition normalized (σ : store) (caller_settings : ref) : Prop :=
  is_Some (markdown_entry σ caller_settings EXTENSION_CONFIGS) ∧
  is_Some (markdown_entry σ caller_settings EXTENSIONS) ∧
  normalize_extensions (config_names σ caller_settings) (extension_list σ caller_settings)
    = extension_list σ caller_settings.

(** ** Registration of the reader with pelican *)

(** The classes [readers.reader_classes] maps file extensions to. *)
Inductive reader_class :=
  | FrontmarkReaderClass
  | OtherReader (name : str).

Definition file_extensions : list str := [codes "md"].

(** [add_reader(readers)], on the dict [readers.reader_classes]. *)
Definition add_reader (reader_classes : gmap str reader_class) : gmap str reader_class :=
  fold_left (λ classes k, <[k := FrontmarkReaderClass]> classes)
            file_extensions reader_classes.

(** ** Helpers to state further properties *)

(** [sep.join(segments)] *)
Fixpoint join (sep : str) (segments : list str) : str :=
  match segments with
  | [] => []
  | [s] => s
  | s :: rest => s ++ sep ++ join sep rest
  end.

(** The same host with other FORMATTED_FIELDS. *)
Definition with_formatted_fields (host : Host) (ff : list str) : Host :=
  {| convert := convert host; lower := lower host;
     process_metadata := process_metadata host; compose := compose host;
     construct_builtin := construct_builtin host; registered := registered host;
     FORMATTED_FIELDS := ff;
     FRONTMARK_PARSE_LITERAL := FRONTMARK_PARSE_LITERAL host |}.

(** * Properties *)

(** ** Text and splitting *)

Lemma lstrip_head s c s' : lstrip s = c :: s' → is_space c = false.
Proof.
  induction s as [|a s IH]; simpl; [done|].
  destruct (is_space a) eqn:Ha; [done|]. intros [= -> _]. done.
Qed.

Lemma lstrip_id c s : is_space c = false → lstrip (c :: s) = c :: s.
Proof. intros Hc. simpl. by rewrite Hc. Qed.

(** A trimmed text does not end in white space. *)
Lemma strip_last s c : last (strip s) = Some c → is_space c = false.
Proof.
  unfold strip, rstrip. rewrite last_reverse.
  destruct (lstrip (reverse (lstrip s))) as [|a r] eqn:E; simpl; [done|].
  intros [= ->]. by eapply lstrip_head.
Qed.

(** Trimming leaves a text alone when neither end is white space. *)
Lemma strip_fixed c s d :
  is_space c = false → is_space d = false → strip (c :: s ++ [d]) = c :: s ++ [d].
Proof.
  intros Hc Hd. unfold strip, rstrip. rewrite (lstrip_id c) by done.
  rewrite app_comm_cons, reverse_snoc, (lstrip_id d) by done.
  by rewrite <- (reverse_snoc (c :: s) d), reverse_involutive.
Qed.

Lemma strip_paragraph s : strip (paragraph s) = paragraph s.
Proof.
  assert (paragraph s = 60 :: ([112; 62] ++ s ++ [60; 47; 112]) ++ [62]) as ->.
  { unfold paragraph. rewrite <- !app_assoc. reflexivity. }
  by apply strip_fixed.
Qed.

Lemma boundary_here_nil : boundary_here [] = false.
Proof. reflexivity. Qed.

Lemma boundary_at_from_nil bol i : boundary_at_from bol [] i = false.
Proof.
  unfold boundary_at_from. rewrite drop_nil, boundary_here_nil.
  apply andb_false_r.
Qed.

Lemma boundary_at_from_cons bol c rest j :
  boundary_at_from bol (c :: rest) (S j) = boundary_at_from (c =? NEWLINE) rest j.
Proof.
  unfold boundary_at_from. simpl drop. f_equal.
  destruct j as [|j]; simpl; [|done].
  destruct (N.eqb_spec c NEWLINE) as [->|Hne].
  - by rewrite bool_decide_eq_true_2.
  - rewrite bool_decide_eq_false_2; [done|]. by intros [= ?].
Qed.

Lemma find_boundary_None_1 bol text i :
  find_boundary bol text = None → boundary_at_from bol text i = false.
Proof.
  revert bol i. induction text as [|c rest IH]; intros bol i; simpl.
  - by rewrite boundary_at_from_nil.
  - destruct (bol && boundary_here (c :: rest)) eqn:E; [done|].
    destruct (find_boundary (c =? NEWLINE) rest) eqn:Ek; [done|]. intros _.
    destruct i as [|i]; [exact E|]. rewrite boundary_at_from_cons. by apply IH.
Qed.

Lemma find_boundary_Some_1 bol text i :
  find_boundary bol text = Some i →
  boundary_at_from bol text i = true ∧
  ∀ j, (j < i)%nat → boundary_at_from bol text j = false.
Proof.
  revert bol i. induction text as [|c rest IH]; intros bol i; simpl; [done|].
  destruct (bol && boundary_here (c :: rest)) eqn:E.
  - intros [= <-]. split; [exact E | intros j Hj; lia].
  - destruct (find_boundary (c =? NEWLINE) rest) as [k|] eqn:Ek; simpl; [|done].
    intros [= <-]. apply IH in Ek as [Hk Hlt].
    rewrite boundary_at_from_cons. split; [done|].
    intros [|j] Hj; [exact E|]. rewrite boundary_at_from_cons. apply Hlt. lia.
Qed.

(** [find_boundary] returns the leftmost match. *)
Lemma find_boundary_Some bol text i :
  find_boundary bol text = Some i ↔
  boundary_at_from bol text i = true ∧
  ∀ j, (j < i)%nat → boundary_at_from bol text j = false.
Proof.
  split; [apply find_boundary_Some_1|]. intros [Hi Hmin].
  destruct (find_boundary bol text) as [k|] eqn:E.
  - apply find_boundary_Some_1 in E as [Hk Hlt]. f_equal.
    destruct (lt_eq_lt_dec k i) as [[Hlt'| ->]|Hgt]; [|done|].
    + rewrite Hmin in Hk by done. done.
    + rewrite Hlt in Hi by done. done.
  - by rewrite (find_boundary_None_1 _ _ i E) in Hi.
Qed.

Lemma find_boundary_None bol text :
  find_boundary bol text = None ↔ ∀ i, boundary_at_from bol text i = false.
Proof.
  split; [intros E i; by apply find_boundary_None_1|].
  intros Hall. destruct (find_boundary bol text) as [i|] eqn:E; [|done].
  apply find_boundary_Some_1 in E as [E _]. by rewrite Hall in E.
Qed.

Lemma boundary_here_dashes text :
  boundary_here text = true →
  text !! 0%nat = Some 45 ∧ text !! 1%nat = Some 45 ∧ text !! 2%nat = Some 45.
Proof.
  unfold boundary_here. intros [Hs _]%andb_prop.
  destruct text as [|a [|b [|c r]]]; simpl in Hs; try done;
    rewrite ?andb_false_r in Hs; try done.
  apply andb_prop in Hs as [Ha [Hb [Hc _]%andb_prop]%andb_prop].
  apply N.eqb_eq in Ha, Hb, Hc. by subst.
Qed.

(** Two matches of the boundary pattern never overlap: the next one
    starts after the newline that ends the line of the first. *)
Lemma delimiter_gap bol bol' text i j :
  boundary_at_from bol text i = true → boundary_at_from bol' text j = true →
  (i < j)%nat → (i + 3 < j)%nat.
Proof.
  unfold boundary_at_from. intros [_ Hi]%andb_prop [Hj _]%andb_prop Hlt.
  apply boundary_here_dashes in Hi as (H0 & H1 & H2).
  rewrite lookup_drop in H0, H1, H2.
  destruct j as [|j]; [lia|]. simpl in Hj. apply bool_decide_eq_true in Hj.
  unfold NEWLINE in Hj.
  destruct (decide (j = i + 0)%nat) as [->|]; [congruence|].
  destruct (decide (j = i + 1)%nat) as [->|]; [congruence|].
  destruct (decide (j = i + 2)%nat) as [->|]; [congruence|].
  lia.
Qed.

Lemma boundary_at_from_drop bol n text k :
  (0 < k)%nat →
  boundary_at_from bol (drop n text) k = boundary_at_from true text (n + k).
Proof.
  intros Hk. destruct k as [|k]; [lia|].
  unfold boundary_at_from. rewrite drop_drop. f_equal.
  replace (n + S k)%nat with (S (n + k)) by lia. simpl.
  by rewrite lookup_drop.
Qed.

Lemma split_from_two text i j' :
  find_boundary true text = Some i →
  find_boundary false (drop (i + 3) text) = Some j' →
  BOUNDARY_split text 2 =
    [take i text; take j' (drop (i + 3) text); drop (i + 3 + j' + 3) text].
Proof.
  intros Hi Hj. unfold BOUNDARY_split. simpl. rewrite Hi, Hj.
  rewrite drop_drop. by rewrite Nat.add_assoc.
Qed.

(** With two delimiter lines the split has three parts, cut at the first
    two of them. *)
Lemma two_delimiters_split t :
  (∃ i j, (i < j)%nat ∧ delimiter_line t i ∧ delimiter_line t j) →
  ∃ i j, (i + 3 < j)%nat ∧ delimiter_line t i ∧ delimiter_line t j ∧
    (∀ k, (k < j)%nat → delimiter_line t k → k = i) ∧
    BOUNDARY_split t 2 =
      [take i t; take (j - (i + 3)) (drop (i + 3) t); drop (j + 3) t].
Proof.
  unfold delimiter_line. intros (i & j & Hij & Hi & Hj).
  destruct (find_boundary true t) as [i0|] eqn:E0.
  2:{ rewrite (find_boundary_None_1 _ _ i E0) in Hi. done. }
  pose proof E0 as [H0 Hmin0]%find_boundary_Some_1.
  assert (∃ b, (i0 < b)%nat ∧ boundary_at_from true t b = true) as (b & Hb & Hbb).
  { destruct (lt_eq_lt_dec i i0) as [[Hlt| ->]|Hgt].
    - rewrite Hmin0 in Hi by done. done.
    - eauto.
    - eauto. }
  pose proof (delimiter_gap _ _ _ _ _ H0 Hbb Hb) as Hgap.
  destruct (find_boundary false (drop (i0 + 3) t)) as [j'|] eqn:E1.
  2:{ pose proof (find_boundary_None_1 _ _ (b - (i0 + 3)) E1) as Hn.
      rewrite boundary_at_from_drop in Hn by lia.
      replace (i0 + 3 + (b - (i0 + 3)))%nat with b in Hn by lia. congruence. }
  pose proof E1 as [H1 Hmin1]%find_boundary_Some_1.
  assert (0 < j')%nat as Hpos.
  { destruct j'; [|lia]. unfold boundary_at_from in H1. simpl in H1. done. }
  rewrite boundary_at_from_drop in H1 by done.
  exists i0, (i0 + 3 + j')%nat. split_and!; [lia|done|done| |].
  - intros k Hk Hbk. destruct (lt_eq_lt_dec k i0) as [[Hlt|Heq]|Hgt]; [|done|].
    + rewrite Hmin0 in Hbk by done. done.
    + pose proof (delimiter_gap _ _ _ _ _ H0 Hbk Hgt) as Hgap'.
      specialize (Hmin1 (k - (i0 + 3))%nat ltac:(lia)).
      rewrite boundary_at_from_drop in Hmin1 by lia.
      replace (i0 + 3 + (k - (i0 + 3)))%nat with k in Hmin1 by lia. congruence.
  - rewrite (split_from_two _ _ _ E0 E1).
    by replace (i0 + 3 + j' - (i0 + 3))%nat with j' by lia.
Qed.

(** Delimiter lines after the second one are delimiter lines of the
    third part. *)
Lemma delimiter_line_in_body t j k :
  delimiter_line t j → (j < k)%nat → delimiter_line t k →
  delimiter_line (drop (j + 3) t) (k - (j + 3)).
Proof.
  unfold delimiter_line. intros Hj Hjk Hk.
  pose proof (delimiter_gap _ _ _ _ _ Hj Hk Hjk).
  rewrite boundary_at_from_drop by lia.
  by replace (j + 3 + (k - (j + 3)))%nat with k by lia.
Qed.

(** ** The splitter *)

Lemma parse_metadata_empty host : _parse_metadata host [] = Ok [].
Proof. reflexivity. Qed.

(** C3: when the trimmed text does not start with the delimiter, or
    starts with it but does not split into exactly three segments on
    delimiter lines, [_parse] returns the empty mapping and the whole
    trimmed text without raising, and [read] returns the rendering of the
    trimmed text with empty metadata.  [read] trims what the renderer
    returns; for a renderer whose output is already trimmed, as that of
    Python-Markdown is, the result is [(render(trim(text)), {})]. *)
Theorem C3_fallback_without_front_matter host text :
  startswith (strip text) DELIMITER = false ∨
    length (BOUNDARY_split (strip text) 2) ≠ 3%nat →
  _parse host text = Ok ([], strip text) ∧
  read host text = Ok (strip (convert host (strip text)), []) ∧
  ((∀ s, strip (convert host s) = convert host s) →
   read host text = Ok (convert host (strip text), [])).
Proof.
  intros Hcase.
  assert (_parse host text = Ok ([], strip text)) as Hparse.
  { unfold _parse. destruct (startswith (strip text) DELIMITER); simpl; [|done].
    destruct Hcase as [?|Hlen]; [done|].
    destruct (BOUNDARY_split (strip text) 2) as [|a [|b [|c [|d l]]]]; try done. }
  assert (read host text = Ok (strip (convert host (strip text)), [])) as Hread.
  { unfold read. rewrite Hparse. reflexivity. }
  split_and!; [done|done|]. intros Htrim. by rewrite Hread, Htrim.
Qed.

Lemma C3_fallback_witness :
  read (sample_host [] None) doc_plain = Ok (paragraph (strip doc_plain), []) ∧
  read (sample_host [] None) doc_unclosed = Ok (paragraph (strip doc_unclosed), []).
Proof.
  split.
  - apply (C3_fallback_without_front_matter (sample_host [] None) doc_plain).
    + left. vm_compute. reflexivity.
    + apply strip_paragraph.
  - apply (C3_fallback_without_front_matter (sample_host [] None) doc_unclosed).
    + right. vm_compute. discriminate.
    + apply strip_paragraph.
Defined.

(** C10: a trimmed text that starts with the delimiter and has at least
    two delimiter lines always splits into three segments (at most two
    splits are made): the metadata block lies between the first two
    delimiter lines, the body is everything after the second one, so
    later delimiter lines stay in the body as they are, and [_parse] does
    not take the fallback for a split of another length. *)
Theorem C10_two_delimiter_lines_split host text :
  startswith (strip text) DELIMITER = true →
  (∃ i j, (i < j)%nat ∧ delimiter_line (strip text) i ∧ delimiter_line (strip text) j) →
  ∃ i j,
    let t := strip text in
    let fm := take (j - (i + 3)) (drop (i + 3) t) in
    let body := drop (j + 3) t in
    (i + 3 < j)%nat ∧ delimiter_line t i ∧ delimiter_line t j ∧
    (∀ k, (k < j)%nat → delimiter_line t k → k = i) ∧
    BOUNDARY_split t 2 = [take i t; fm; body] ∧
    length (BOUNDARY_split t 2) = 3%nat ∧
    _parse host text =
      (metadata ← yaml_load host (loader_class host) fm;
       Ok (match metadata with VDict d => d | _ => [] end, body)) ∧
    (∀ k, (j < k)%nat → delimiter_line t k → delimiter_line body (k - (j + 3))).
Proof.
  intros Hstart Htwo.
  destruct (two_delimiters_split _ Htwo) as (i & j & Hij & Hi & Hj & Hfirst & Hsplit).
  exists i, j. simpl. split_and!; try done.
  - by rewrite Hsplit.
  - unfold _parse. by rewrite Hstart, Hsplit.
  - intros k Hk Hdk. by apply delimiter_line_in_body.
Qed.

Lemma C10_two_delimiter_lines_witness :
  ∃ i j,
    let t := strip doc_fields in
    let fm := take (j - (i + 3)) (drop (i + 3) t) in
    let body := drop (j + 3) t in
    (i + 3 < j)%nat ∧ delimiter_line t i ∧ delimiter_line t j ∧
    (∀ k, (k < j)%nat → delimiter_line t k → k = i) ∧
    BOUNDARY_split t 2 = [take i t; fm; body] ∧
    length (BOUNDARY_split t 2) = 3%nat ∧
    _parse (sample_host [] None) doc_fields =
      (metadata ← yaml_load (sample_host [] None) (loader_class (sample_host [] None)) fm;
       Ok (match metadata with VDict d => d | _ => [] end, body)) ∧
    (∀ k, (j < k)%nat → delimiter_line t k → delimiter_line body (k - (j + 3))).
Proof.
  apply (C10_two_delimiter_lines_split (sample_host [] None) doc_fields).
  - vm_compute. reflexivity.
  - exists 0%nat, 51%nat. split; [lia|]. split; vm_compute; reflexivity.
Defined.

(** ** The metadata loader *)

Lemma yaml_load_syntax_error host ctors fm e :
  compose host fm = Err e → yaml_load host ctors fm = Err e.
Proof. unfold yaml_load. by intros ->. Qed.

Lemma yaml_load_empty host ctors fm :
  compose host fm = Ok None → yaml_load host ctors fm = Ok VNone.
Proof. unfold yaml_load. by intros ->. Qed.

Lemma parse_delimited host text a fm content :
  startswith (strip text) DELIMITER = true →
  BOUNDARY_split (strip text) 2 = [a; fm; content] →
  _parse host text =
    (metadata ← yaml_load host (loader_class host) fm;
     Ok (match metadata with VDict d => d | _ => [] end, content)).
Proof. intros Hs Hsplit. unfold _parse. by rewrite Hs, Hsplit. Qed.

(** C7: when the text between the two delimiter lines is malformed YAML,
    the error of the parser comes out of [_parse] and of [read]; there is
    no fallback to empty metadata. *)
Theorem C7_syntax_error_propagates host text a fm content e :
  startswith (strip text) DELIMITER = true →
  BOUNDARY_split (strip text) 2 = [a; fm; content] →
  compose host fm = Err e →
  _parse host text = Err e ∧ read host text = Err e ∧
  ∀ r, _parse host text ≠ Ok r.
Proof.
  intros Hs Hsplit Herr.
  assert (_parse host text = Err e) as Hparse.
  { rewrite (parse_delimited _ _ _ _ _ Hs Hsplit).
    by rewrite (yaml_load_syntax_error _ _ _ _ Herr). }
  split_and!; [done| |by rewrite Hparse].
  unfold read. by rewrite Hparse.
Qed.

Lemma C7_syntax_error_witness :
  _parse (sample_host [] None) doc_broken = Err (YAMLError 0) ∧
  read (sample_host [] None) doc_broken = Err (YAMLError 0) ∧
  ∀ r, _parse (sample_host [] None) doc_broken ≠ Ok r.
Proof.
  apply (C7_syntax_error_propagates (sample_host [] None) doc_broken
           [] fm_broken ([NEWLINE] ++ codes "hello")).
  - vm_compute. reflexivity.
  - vm_compute. reflexivity.
  - vm_compute. reflexivity.
Defined.

(** C8: when the metadata block loads to something that is not a mapping
    (a scalar, a sequence, [None] for an empty block), [_parse] returns
    the empty mapping with the third segment as body, and [read] renders
    that body; the metadata [_parse] returns is the whole loaded mapping or
    the empty one, nothing in between. *)
Theorem C8_non_mapping_root host text a fm content :
  startswith (strip text) DELIMITER = true →
  BOUNDARY_split (strip text) 2 = [a; fm; content] →
  (∀ v, yaml_load host (loader_class host) fm = Ok v → (∀ d, v ≠ VDict d) →
     _parse host text = Ok ([], content) ∧
     read host text = Ok (strip (convert host content), [])) ∧
  (compose host fm = Ok None →
     _parse host text = Ok ([], content) ∧
     read host text = Ok (strip (convert host content), [])) ∧
  (∀ md body, _parse host text = Ok (md, body) →
     body = content ∧
     (md = [] ∨ yaml_load host (loader_class host) fm = Ok (VDict md))).
Proof.
  intros Hs Hsplit. pose proof (parse_delimited host _ _ _ _ Hs Hsplit) as Hp.
  assert (∀ v, yaml_load host (loader_class host) fm = Ok v → (∀ d, v ≠ VDict d) →
     _parse host text = Ok ([], content) ∧
     read host text = Ok (strip (convert host content), [])) as Hnon.
  { intros v Hv Hnd.
    assert (_parse host text = Ok ([], content)) as Hparse.
    { rewrite Hp, Hv. simpl. destruct v; try done. by destruct (Hnd entries). }
    split; [done|]. unfold read. by rewrite Hparse. }
  split_and!; [done| |].
  - intros Hnone. by apply (Hnon VNone); [apply yaml_load_empty|].
  - intros md body. rewrite Hp.
    destruct (yaml_load host (loader_class host) fm) as [v|e]; simpl; [|done].
    intros [= <- <-]. split; [done|]. destruct v; auto.
Qed.

Lemma C8_non_mapping_root_witness :
  read (sample_host [] None) doc_scalar
    = Ok (strip (paragraph ([NEWLINE] ++ codes "hello")), []) ∧
  read (sample_host [] None) doc_empty_block
    = Ok (strip (paragraph ([NEWLINE] ++ codes "hello")), []).
Proof.
  split.
  - destruct (C8_non_mapping_root (sample_host [] None) doc_scalar
                [] fm_scalar ([NEWLINE] ++ codes "hello")) as (Hnon & _ & _).
    + vm_compute. reflexivity.
    + vm_compute. reflexivity.
    + apply (Hnon (VStr (codes "just text"))).
      * vm_compute. reflexivity.
      * intros d. discriminate.
  - destruct (C8_non_mapping_root (sample_host [] None) doc_empty_block
                [] [NEWLINE] ([NEWLINE] ++ codes "hello")) as (_ & Hnone & _).
    + vm_compute. reflexivity.
    + vm_compute. reflexivity.
    + apply Hnone. vm_compute. reflexivity.
Defined.

(** ** Ordered dicts *)

Section odict_facts.
Context {K V : Type} `{EqDecision K}.
Implicit Types (k : K) (v : V) (d ps : list (K * V)).

Lemma last_value_app k ps1 ps2 :
  last_value k (ps1 ++ ps2) =
    match last_value k ps2 with
    | Some w => Some w
    | None => last_value k ps1
    end.
Proof.
  induction ps1 as [|[k' v'] ps1 IH]; simpl.
  - by destruct (last_value k ps2).
  - rewrite IH. by destruct (last_value k ps2).
Qed.

Lemma last_value_None k ps : last_value k ps = None ↔ k ∉ ps.*1.
Proof.
  induction ps as [|[k' v'] ps IH]; simpl.
  - split; [intros _; apply not_elem_of_nil | done].
  - rewrite not_elem_of_cons, <- IH.
    destruct (last_value k ps).
    + split; [done|]. by intros [_ ?].
    + destruct (decide (k = k')) as [->|Hne].
      * split; [done|]. by intros [? _].
      * by split.
Qed.

(** The last pair with key [k] decides: no pair after it has that key. *)
Lemma last_value_Some k v ps :
  last_value k ps = Some v ↔
  ∃ i, ps !! i = Some (k, v) ∧ ∀ j p, (i < j)%nat → ps !! j = Some p → p.1 ≠ k.
Proof.
  revert v. induction ps as [|[k' v'] ps IH]; intros v; simpl.
  - split; [done|]. by intros (i & Hi & _).
  - destruct (last_value k ps) as [w|] eqn:E.
    + split.
      * intros [= <-]. destruct (proj1 (IH w) eq_refl) as (i & Hi & Hlast).
        exists (S i). split; [done|]. intros [|j] p Hj Hp; [lia|].
        eapply Hlast; [|exact Hp]. lia.
      * intros (i & Hi & Hlast). destruct i as [|i].
        -- exfalso. destruct (proj1 (IH w) eq_refl) as (j & Hj & _).
           by apply (Hlast (S j) (k, w)); [lia| |].
        -- apply IH. exists i. split; [done|].
           intros j p Hj Hp. apply (Hlast (S j) p); [lia|done].
    + apply last_value_None in E. split.
      * destruct (decide (k = k')) as [->|]; [|done]. intros [= <-].
        exists 0%nat. split; [done|]. intros [|j] p Hj Hp; [lia|]. simpl in Hp.
        intros <-. apply E. apply list_elem_of_fmap. exists p. split; [done|].
        by eapply list_elem_of_lookup_2.
      * intros (i & Hi & _). destruct i as [|i].
        -- simpl in Hi. injection Hi as -> ->. by rewrite decide_True.
        -- exfalso. apply E. apply list_elem_of_fmap. exists (k, v). split; [done|].
           by eapply list_elem_of_lookup_2.
Qed.
End odict_facts.

Section odict_update.
Context {K V : Type} `{EqDecision K}.
Implicit Types (k : K) (v : V) (d ps : list (K * V)).

Lemma od_get_set k k' v d :
  od_get k (od_set k' v d) = if decide (k = k') then Some v else od_get k d.
Proof.
  induction d as [|[k0 v0] d IH]; simpl.
  - by destruct (decide (k = k')).
  - destruct (decide (k' = k0)) as [->|Hne]; simpl.
    + by destruct (decide (k = k0)).
    + rewrite IH. destruct (decide (k = k0)) as [->|]; [|done].
      by rewrite decide_False.
Qed.

Lemma od_keys_set k v d :
  od_keys (od_set k v d) = if decide (k ∈ od_keys d) then od_keys d else od_keys d ++ [k].
Proof.
  unfold od_keys. induction d as [|[k0 v0] d IH].
  - destruct (decide (k ∈ ([] : list (K * V)).*1)) as [Hin|_]; [|done].
    by apply elem_of_nil in Hin.
  - cbn [od_set]. rewrite fmap_cons. cbn [fst].
    destruct (decide (k = k0)) as [->|Hne].
    + rewrite fmap_cons. cbn [fst]. rewrite decide_True; [done|]. apply elem_of_cons. by left.
    + rewrite fmap_cons. cbn [fst]. rewrite IH. destruct (decide (k ∈ d.*1)) as [Hin|Hnin].
      * rewrite decide_True; [done|]. apply elem_of_cons. by right.
      * rewrite decide_False; [done|]. by apply not_elem_of_cons.
Qed.

(** Folding assignments over a dict: a key reads the value of its last
    assignment, else what the dict held. *)
Lemma od_get_fold k ps d :
  od_get k (fold_left (λ d p, od_set p.1 p.2 d) ps d) =
    match last_value k ps with
    | Some v => Some v
    | None => od_get k d
    end.
Proof.
  revert d. induction ps as [|[k' v'] ps IH]; intros d; simpl; [done|].
  rewrite IH. destruct (last_value k ps); [done|].
  rewrite od_get_set. by destruct (decide (k = k')).
Qed.

Lemma od_get_of_pairs k ps : od_get k (od_of_pairs ps) = last_value k ps.
Proof. unfold od_of_pairs. rewrite od_get_fold. by destruct (last_value k ps). Qed.

Lemma od_get_Some k v d : od_get k d = Some v → (k, v) ∈ d.
Proof.
  induction d as [|[k0 v0] d IH]; simpl; [done|].
  destruct (decide (k = k0)) as [->|].
  - intros [= ->]. apply elem_of_cons. by left.
  - intros ?. apply elem_of_cons. right. by apply IH.
Qed.

Lemma od_get_None k d : od_get k d = None ↔ k ∉ od_keys d.
Proof.
  unfold od_keys. induction d as [|[k0 v0] d IH]; simpl.
  - split; [intros _; apply not_elem_of_nil|done].
  - rewrite not_elem_of_cons, <- IH. destruct (decide (k = k0)) as [->|].
    + split; [done|]. by intros [? _].
    + by split; [|intros [_ ?]].
Qed.
End odict_update.

Lemma filter_all {A} (P : A → Prop) `{!∀ x, Decision (P x)} (l : list A) :
  (∀ x, P x) → filter P l = l.
Proof.
  intros HP. induction l as [|a l IH]; [done|].
  rewrite filter_cons_True by done. by rewrite IH.
Qed.

Section first_seen_facts.
Context {K : Type} `{EqDecision K}.
Implicit Types (k : K) (l : list K).

Lemma elem_of_first_seen k l : k ∈ first_seen l ↔ k ∈ l.
Proof.
  induction l as [|a l IH]; simpl; [done|].
  rewrite !elem_of_cons, list_elem_of_filter, IH. split.
  - intros [->|[_ ?]]; [by left|by right].
  - intros [->|Hin]; [by left|].
    destruct (decide (k = a)) as [->|Hne]; [by left|right; by split].
Qed.

Lemma NoDup_first_seen l : NoDup (first_seen l).
Proof.
  induction l as [|a l IH]; simpl; [constructor|].
  apply NoDup_cons. split; [|by apply NoDup_filter].
  rewrite list_elem_of_filter. by intros [? _].
Qed.

(** The position of a key in [first_seen] is that of its first
    occurrence: whatever comes before is made of the keys seen before. *)
Lemma first_seen_app l1 l2 :
  first_seen (l1 ++ l2) = first_seen l1 ++ filter (λ k, k ∉ l1) (first_seen l2).
Proof.
  induction l1 as [|a l1 IH]; simpl.
  - rewrite filter_all; [done|]. intros k. apply not_elem_of_nil.
  - f_equal. rewrite IH, filter_app. f_equal.
    rewrite list_filter_filter. apply list_filter_iff. intros k.
    rewrite not_elem_of_cons. tauto.
Qed.
End first_seen_facts.

Section odict_keys.
Context {K V : Type} `{EqDecision K}.
Implicit Types (k : K) (v : V) (d ps : list (K * V)).

Lemma od_keys_fold ps d :
  od_keys (fold_left (λ d p, od_set p.1 p.2 d) ps d) =
    od_keys d ++ filter (λ k, k ∉ od_keys d) (first_seen ps.*1).
Proof.
  revert d. induction ps as [|[k v] ps IH]; intros d; simpl.
  - by rewrite app_nil_r.
  - rewrite IH, od_keys_set. destruct (decide (k ∈ od_keys d)) as [Hin|Hnin].
    + rewrite filter_cons_False by (by intros ?). f_equal.
      rewrite list_filter_filter. apply list_filter_iff. intros k'.
      split; [|tauto]. intros Hk'. split; [done|]. by intros ->.
    + rewrite filter_cons_True by done. rewrite <- app_assoc. simpl. do 2 f_equal.
      rewrite list_filter_filter. apply list_filter_iff. intros k'.
      rewrite not_elem_of_app, list_elem_of_singleton. tauto.
Qed.

(** The keys of [OrderedDict(pairs)] are the keys of the pairs in order of
    first appearance. *)
Lemma od_keys_of_pairs ps : od_keys (od_of_pairs ps) = first_seen ps.*1.
Proof.
  unfold od_of_pairs. rewrite od_keys_fold. simpl.
  rewrite filter_all; [done|]. intros k. apply not_elem_of_nil.
Qed.
End odict_keys.

(** ** The registry of tag handlers *)

Lemma fold_register_lookup (rs : list reply) (t : gmap str handler) (tag : str) :
  fold_left register_reply rs t !! tag =
    match last_value tag (reply_pairs rs) with
    | Some h => Some h
    | None => t !! tag
    end.
Proof.
  revert t. induction rs as [|[tag' c|] rs IH]; intros t; simpl; [done| |by rewrite IH].
  rewrite IH. destruct (last_value tag (reply_pairs rs)); [done|].
  unfold add_constructor. rewrite lookup_insert.
  destruct (decide (tag' = tag)) as [->|Hne].
  - by rewrite decide_True.
  - by rewrite decide_False by (by intros ->).
Qed.

(** The handler the snapshot holds for a tag is the one of the last call
    of [add_constructor] for that tag. *)
Lemma loader_class_lookup host (tag : str) :
  loader_class host !! tag = last_value tag (registrations host).
Proof.
  unfold loader_class, registrations, builtin_registrations.
  rewrite fold_register_lookup, last_value_app.
  destruct (last_value tag (reply_pairs (registered host))); [done|].
  unfold add_constructor.
  destruct (default true (FRONTMARK_PARSE_LITERAL host)); simpl.
  - rewrite !lookup_insert, lookup_empty.
    destruct (decide (STR_TAG = tag)) as [<-|Hs].
    + by rewrite decide_True.
    + rewrite (decide_False (P := tag = STR_TAG)) by (by intros ->).
      destruct (decide (MD_TAG = tag)) as [<-|Hm].
      * by rewrite decide_True.
      * by rewrite decide_False by (by intros ->).
  - rewrite lookup_insert, lookup_empty.
    destruct (decide (MD_TAG = tag)) as [<-|Hm].
    + by rewrite decide_True.
    + by rewrite decide_False by (by intros ->).
Qed.

Lemma construct_object_registered host ctors n h :
  ctors !! node_tag n = Some h → construct_object host ctors n = h n.
Proof. intros Hh. destruct n; simpl in *; by rewrite Hh. Qed.

Lemma last_value_middle {K V} `{EqDecision K} (k : K) (v : V) pre post :
  k ∉ post.*1 → last_value k (pre ++ (k, v) :: post) = Some v.
Proof.
  intros Hpost. rewrite last_value_app. simpl.
  apply last_value_None in Hpost. rewrite Hpost. by rewrite decide_True.
Qed.

(** C9: for every tag, of the handlers registered for it only the one
    registered last is invoked.  The registrations of one snapshot are
    the two built-in ones followed by the contributed ones, so a
    contributed handler for [!md] or for the string tag replaces the
    built-in one, and a later contribution replaces an earlier one. *)
Theorem C9_last_registration_wins host tag pre h post :
  registrations host = pre ++ (tag, h) :: post →
  tag ∉ post.*1 →
  registrations host = builtin_registrations host ++ reply_pairs (registered host) ∧
  loader_class host !! tag = Some h ∧
  ∀ n, node_tag n = tag → construct_object host (loader_class host) n = h n.
Proof.
  intros Hreg Hpost.
  assert (loader_class host !! tag = Some h) as Hlook.
  { rewrite loader_class_lookup, Hreg. by apply last_value_middle. }
  split_and!; [done|done|].
  intros n <-. by apply construct_object_registered.
Qed.

Lemma C9_last_registration_witness :
  let host := sample_host [RPair (codes "!up") shout; RMalformed;
                           RPair (codes "!up") whisper; RPair MD_TAG shout] None in
  construct_object host (loader_class host) (ScalarNode (codes "!up") (codes "two") None)
    = Ok (VStr (codes "(two)")) ∧
  construct_object host (loader_class host) (ScalarNode MD_TAG (codes "one") None)
    = Ok (VStr (codes "one!")).
Proof.
  intros host. split.
  - destruct (C9_last_registration_wins host (codes "!up")
      [(MD_TAG, yaml_markdown_constructor host);
       (STR_TAG, yaml_multiline_as_markdown_constructor host);
       (codes "!up", shout)]
      whisper [(MD_TAG, shout)]) as (_ & _ & Hcall).
    + reflexivity.
    + intros [Heq|Hin]%elem_of_cons; [discriminate Heq|by apply elem_of_nil in Hin].
    + by rewrite Hcall.
  - destruct (C9_last_registration_wins host MD_TAG
      [(MD_TAG, yaml_markdown_constructor host);
       (STR_TAG, yaml_multiline_as_markdown_constructor host);
       (codes "!up", shout); (codes "!up", whisper)]
      shout []) as (_ & _ & Hcall).
    + reflexivity.
    + apply not_elem_of_nil.
    + by rewrite Hcall.
Defined.

Lemma loader_class_builtin host (tag : str) :
  tag ∉ external_tags host →
  loader_class host !! tag = last_value tag (builtin_registrations host).
Proof.
  intros Hext. rewrite loader_class_lookup. unfold registrations.
  rewrite last_value_app. apply last_value_None in Hext. by rewrite Hext.
Qed.

Lemma loader_class_md host :
  MD_TAG ∉ external_tags host →
  loader_class host !! MD_TAG = Some (yaml_markdown_constructor host).
Proof.
  intros Hext. rewrite loader_class_builtin by done. unfold builtin_registrations.
  by destruct (default true (FRONTMARK_PARSE_LITERAL host)).
Qed.

Lemma loader_class_str host :
  STR_TAG ∉ external_tags host →
  loader_class host !! STR_TAG =
    if default true (FRONTMARK_PARSE_LITERAL host)
    then Some (yaml_multiline_as_markdown_constructor host) else None.
Proof.
  intros Hext. rewrite loader_class_builtin by done. unfold builtin_registrations.
  by destruct (default true (FRONTMARK_PARSE_LITERAL host)).
Qed.

(** What the loader makes of a string scalar when no collaborator took
    over the string tag. *)
Lemma construct_str_scalar host v style :
  STR_TAG ∉ external_tags host →
  construct_object host (loader_class host) (ScalarNode STR_TAG v style) =
    Ok (VStr (if default true (FRONTMARK_PARSE_LITERAL host)
                 && bool_decide (style = Some (codes "|"))
              then strip (convert host v) else v)).
Proof.
  intros Hext. cbn [construct_object node_tag]. rewrite loader_class_str by done.
  destruct (default true (FRONTMARK_PARSE_LITERAL host)); [|reflexivity].
  unfold yaml_multiline_as_markdown_constructor. cbn [node_style andb].
  destruct (decide (style = Some (codes "|"))) as [Hst|Hst].
  - rewrite bool_decide_eq_true_2 by done. reflexivity.
  - rewrite bool_decide_eq_false_2 by done. reflexivity.
Qed.

Lemma construct_md_scalar host v style :
  MD_TAG ∉ external_tags host →
  construct_object host (loader_class host) (ScalarNode MD_TAG v style) =
    Ok (VStr (strip (convert host v))).
Proof. intros Hext. simpl. by rewrite loader_class_md. Qed.

(** C6, as stated, fails: the handlers that collaborators contribute
    through [frontmark_yaml_register] are registered after the built-in
    ones and replace them.  With a handler contributed for [!md], a scalar
    tagged [!md] is not rendered; with one contributed for the string tag,
    a literal block is not rendered although FRONTMARK_PARSE_LITERAL is
    on. *)
Lemma C6_external_handler_counterexample :
  let md_taken := sample_host [RPair MD_TAG shout] None in
  let str_taken := sample_host [RPair STR_TAG whisper] None in
  let block := codes "*hi*" ++ [NEWLINE] in
  construct_object md_taken (loader_class md_taken) (ScalarNode MD_TAG (codes "one") None)
    = Ok (VStr (codes "one!")) ∧
  construct_object md_taken (loader_class md_taken) (ScalarNode MD_TAG (codes "one") None)
    ≠ Ok (VStr (strip (convert md_taken (codes "one")))) ∧
  FRONTMARK_PARSE_LITERAL str_taken = None ∧
  construct_object str_taken (loader_class str_taken)
      (ScalarNode STR_TAG block (Some (codes "|")))
    = Ok (VStr (codes "(" ++ block ++ codes ")")) ∧
  construct_object str_taken (loader_class str_taken)
      (ScalarNode STR_TAG block (Some (codes "|")))
    ≠ Ok (VStr (strip (convert str_taken block))).
Proof.
  intros md_taken str_taken block. split_and!.
  - vm_compute. reflexivity.
  - vm_compute. discriminate.
  - reflexivity.
  - vm_compute. reflexivity.
  - vm_compute. discriminate.
Qed.

(** C6, amended: as long as no handler contributed through
    [frontmark_yaml_register] is registered for the tag [!md], a scalar
    tagged [!md] is rendered and trimmed whatever FRONTMARK_PARSE_LITERAL
    is; as long as none is registered for the string tag, a scalar with the
    string tag is rendered and trimmed when FRONTMARK_PARSE_LITERAL is on
    (the default) and the scalar was written in literal block style, and
    is returned as it is otherwise.  The trimming is [str.strip()], on
    both sides: what is returned has no white space at its end. *)
Theorem C6_md_tag_and_literal_block host v style :
  (MD_TAG ∉ external_tags host →
   construct_object host (loader_class host) (ScalarNode MD_TAG v style) =
     Ok (VStr (strip (convert host v)))) ∧
  (STR_TAG ∉ external_tags host →
   construct_object host (loader_class host) (ScalarNode STR_TAG v style) =
     Ok (VStr (if default true (FRONTMARK_PARSE_LITERAL host)
                  && bool_decide (style = Some (codes "|"))
               then strip (convert host v) else v))) ∧
  (∀ c, last (strip (convert host v)) = Some c → is_space c = false).
Proof.
  split_and!.
  - apply construct_md_scalar.
  - apply construct_str_scalar.
  - apply strip_last.
Qed.

Lemma C6_md_tag_and_literal_block_witness :
  let off := sample_host [RPair STR_TAG shout] (Some false) in
  let dflt := sample_host [RPair (codes "!up") shout] None in
  let bar := Some (codes "|") in
  let block := codes "*hi*" ++ [NEWLINE] in
  construct_object off (loader_class off) (ScalarNode MD_TAG block bar)
    = Ok (VStr (paragraph block)) ∧
  construct_object dflt (loader_class dflt) (ScalarNode STR_TAG block bar)
    = Ok (VStr (paragraph block)) ∧
  construct_object dflt (loader_class dflt) (ScalarNode STR_TAG (codes "_hi_") None)
    = Ok (VStr (codes "_hi_")).
Proof.
  intros off dflt bar block.
  split_and!.
  - destruct (C6_md_tag_and_literal_block off block bar) as (Hmd & _ & _).
    rewrite Hmd; [vm_compute; reflexivity|].
    intros [Heq|Hin]%elem_of_cons; [discriminate Heq|by apply elem_of_nil in Hin].
  - destruct (C6_md_tag_and_literal_block dflt block bar) as (_ & Hstr & _).
    rewrite Hstr; [vm_compute; reflexivity|].
    intros [Heq|Hin]%elem_of_cons; [discriminate Heq|by apply elem_of_nil in Hin].
  - destruct (C6_md_tag_and_literal_block dflt (codes "_hi_") None) as (_ & Hstr & _).
    rewrite Hstr; [vm_compute; reflexivity|].
    intros [Heq|Hin]%elem_of_cons; [discriminate Heq|by apply elem_of_nil in Hin].
Defined.

(** ** Traversals *)

Section traverse_facts.
Context {A B : Type} (f : A → result B).

Lemma traverse_lookup l bs i a :
  traverse f l = Ok bs → l !! i = Some a → ∃ b, f a = Ok b ∧ bs !! i = Some b.
Proof.
  revert bs i. induction l as [|x l IH]; intros bs i; simpl; [done|].
  destruct (f x) as [b|e] eqn:Ex; simpl; [|done].
  destruct (traverse f l) as [bs'|e] eqn:El; simpl; [|done].
  intros [= <-]. destruct i as [|i]; simpl.
  - intros [= <-]. eauto.
  - intros Hi. by apply (IH bs').
Qed.

Lemma traverse_lookup_inv l bs i b :
  traverse f l = Ok bs → bs !! i = Some b → ∃ a, l !! i = Some a ∧ f a = Ok b.
Proof.
  revert bs i. induction l as [|x l IH]; intros bs i; simpl.
  - by intros [= <-].
  - destruct (f x) as [b0|e] eqn:Ex; simpl; [|done].
    destruct (traverse f l) as [bs'|e] eqn:El; simpl; [|done].
    intros [= <-]. destruct i as [|i]; simpl.
    + intros [= <-]. eauto.
    + intros Hi. by apply (IH bs').
Qed.

Lemma traverse_length l bs : traverse f l = Ok bs → length bs = length l.
Proof.
  revert bs. induction l as [|x l IH]; intros bs; simpl.
  - by intros [= <-].
  - destruct (f x) as [b0|e]; simpl; [|done].
    destruct (traverse f l) as [bs'|e]; simpl; [|done].
    intros [= <-]. simpl. f_equal. by apply IH.
Qed.

(** The traversal returns when [f] returns on every element. *)
Lemma traverse_returns l :
  (∀ a, a ∈ l → ∃ b, f a = Ok b) → ∃ bs, traverse f l = Ok bs.
Proof.
  induction l as [|x l IH]; intros Hall; simpl; [eauto|].
  destruct (Hall x) as [b ->]; [apply elem_of_cons; by left|]. simpl.
  destruct IH as [bs ->]; [|simpl; eauto].
  intros a Ha. apply Hall. apply elem_of_cons. by right.
Qed.
End traverse_facts.

(** ** The field post-processor *)

(** The loop assigns, in order, the pair [field] computes for each item;
    it raises what the first failing item raises. *)
Lemma parse_metadata_loop_traverse host items output :
  parse_metadata_loop host items output =
    (fs ← traverse (field host) items;
     Ok (fold_left (λ d p, od_set p.1 p.2 d) fs output)).
Proof.
  revert output. induction items as [|[name value] items IH]; intros output; [done|].
  cbn [parse_metadata_loop traverse].
  assert (field host (name, value) =
            (n ← key_lower host name; v ← field_value host n value; Ok (n, v)))
    as -> by reflexivity.
  destruct (key_lower host name) as [n|e]; [|reflexivity].
  cbn [mbind result_bind]. fold (field_value host n value).
  destruct (field_value host n value) as [v|e]; [|reflexivity].
  cbn [mbind result_bind]. rewrite IH.
  by destruct (traverse (field host) items).
Qed.

Lemma parse_metadata_Ok host meta out :
  _parse_metadata host meta = Ok out ↔
  ∃ fs, traverse (field host) meta = Ok fs ∧ out = od_of_pairs fs.
Proof.
  unfold _parse_metadata. rewrite parse_metadata_loop_traverse.
  destruct (traverse (field host) meta) as [fs|e]; simpl.
  - split; [intros [= <-]; eauto|]. by intros (? & [= <-] & ->).
  - split; [done|]. by intros (? & ? & _).
Qed.

Lemma field_Ok host k v name w :
  field host (k, v) = Ok (name, w) ↔
  ∃ k0, k = KStr k0 ∧ name = lower host k0 ∧ field_value host name v = Ok w.
Proof.
  unfold field. simpl. destruct k as [|k0|o]; simpl.
  - split; [done|]. by intros (? & ? & _).
  - destruct (field_value host (lower host k0) v) as [w'|e] eqn:E; simpl.
    + split.
      * intros [= <- <-]. eauto.
      * intros (k1 & [= <-] & -> & Hw). rewrite E in Hw. by injection Hw as ->.
    + split; [done|]. intros (k1 & [= <-] & -> & Hw). by rewrite E in Hw.
  - split; [done|]. by intros (? & ? & _).
Qed.

Lemma lowered_keys_fields host meta fs :
  traverse (field host) meta = Ok fs → lowered_keys host meta = fs.*1.
Proof.
  revert fs. induction meta as [|[k v] meta IH]; intros fs; simpl.
  - by intros [= <-].
  - destruct (field host (k, v)) as [[name w]|e] eqn:Ef; simpl; [|done].
    destruct (traverse (field host) meta) as [fs'|e] eqn:Et; simpl; [|done].
    intros [= <-]. apply field_Ok in Ef as (k0 & -> & -> & _).
    unfold lowered_keys in *. simpl. f_equal. by apply IH.
Qed.

Lemma field_value_Ok host name v w :
  field_value host name v = Ok w ↔
  if bool_decide (name ∈ FORMATTED_FIELDS host)
  then ∃ s, v = VStr s ∧ process_metadata host name (VStr (strip (convert host s))) = Ok w
  else process_metadata host name v = Ok w.
Proof.
  unfold field_value. destruct (bool_decide (name ∈ FORMATTED_FIELDS host)); [|done].
  destruct v as [|s|o|l|d]; simpl; try (split; [done|by intros (? & ? & _)]).
  split; [eauto|]. by intros (s' & [= <-] & ?).
Qed.

(** The output holds, under a lower-cased name, what [field] computed for
    the last item with that name. *)
Lemma parse_metadata_last host meta fs i name w :
  traverse (field host) meta = Ok fs →
  fs !! i = Some (name, w) →
  (∀ j k' v', (i < j)%nat → meta !! j = Some (KStr k', v') → lower host k' ≠ name) →
  od_get name (od_of_pairs fs) = Some w.
Proof.
  intros Hfs Hi Hlast. rewrite od_get_of_pairs. apply last_value_Some.
  exists i. split; [done|]. intros j [name' w'] Hj Hp. simpl.
  destruct (traverse_lookup_inv _ _ _ _ _ Hfs Hp) as ([k' v'] & Hm & Hf).
  apply field_Ok in Hf as (k0 & -> & -> & _). by eapply Hlast.
Qed.

(** C5: for every pair [(key, value)] of the raw mapping, the hook is
    applied to [strip(render(value))] when the lower-cased key is in
    FORMATTED_FIELDS and to [value] itself otherwise, and what the hook
    returns is the value of the output under the lower-cased key (for the
    last pair with that lower-cased key, which is the one the output
    keeps).  The output exists as soon as every key is a [str], every
    formatted value is a [str] and the hook returns. *)
Theorem C5_formatted_or_raw host meta :
  (∀ out i k v, _parse_metadata host meta = Ok out → meta !! i = Some (k, v) →
     ∃ k0 w, k = KStr k0 ∧
       (if bool_decide (lower host k0 ∈ FORMATTED_FIELDS host)
        then ∃ s, v = VStr s ∧
               process_metadata host (lower host k0) (VStr (strip (convert host s))) = Ok w
        else process_metadata host (lower host k0) v = Ok w) ∧
       ((∀ j k' v', (i < j)%nat → meta !! j = Some (KStr k', v') →
                    lower host k' ≠ lower host k0) →
        od_get (lower host k0) out = Some w)) ∧
  ((∀ k v, (k, v) ∈ meta →
      ∃ k0 w, k = KStr k0 ∧
        if bool_decide (lower host k0 ∈ FORMATTED_FIELDS host)
        then ∃ s, v = VStr s ∧
               process_metadata host (lower host k0) (VStr (strip (convert host s))) = Ok w
        else process_metadata host (lower host k0) v = Ok w) →
   ∃ out, _parse_metadata host meta = Ok out).
Proof.
  split.
  - intros out i k v (fs & Hfs & ->)%parse_metadata_Ok Hi.
    destruct (traverse_lookup _ _ _ _ _ Hfs Hi) as ([name w] & Hf & Hfi).
    apply field_Ok in Hf as (k0 & -> & -> & Hw).
    exists k0, w. split_and!; [done|by apply field_value_Ok|].
    intros Hlast. by eapply parse_metadata_last.
  - intros Hall.
    destruct (traverse_returns (field host) meta) as [fs Hfs].
    + intros [k v] Hin. destruct (Hall k v Hin) as (k0 & w & -> & Hw).
      exists (lower host k0, w). apply field_Ok. exists k0.
      split_and!; [done|done|by apply field_value_Ok].
    + exists (od_of_pairs fs). apply parse_metadata_Ok. eauto.
Qed.

Lemma C5_formatted_or_raw_witness :
  let host := sample_host [] None in
  let meta := [(KStr (codes "Summary"), VStr (codes "*hi*"));
               (KStr (codes "Note"), VStr (codes "*hi*"))] in
  _parse_metadata host meta =
    Ok [(codes "summary", VStr (codes "<p>*hi*</p>"));
        (codes "note", VStr (codes "*hi*"))] ∧
  ∃ w, process_metadata host (codes "note") (VStr (codes "*hi*")) = Ok w ∧
       od_get (codes "note")
         [(codes "summary", VStr (codes "<p>*hi*</p>"));
          (codes "note", VStr (codes "*hi*"))] = Some w.
Proof.
  intros host meta.
  assert (_parse_metadata host meta =
    Ok [(codes "summary", VStr (codes "<p>*hi*</p>"));
        (codes "note", VStr (codes "*hi*"))]) as Hrun by (vm_compute; reflexivity).
  split; [exact Hrun|].
  destruct (C5_formatted_or_raw host meta) as [Hpair _].
  destruct (Hpair _ 1%nat (KStr (codes "Note")) (VStr (codes "*hi*")) Hrun eq_refl)
    as (k0 & w & [= <-] & Hw & Hout).
  exists w. split; [exact Hw|]. apply Hout.
  intros [|[|[|j]]] k' v' Hj Hm; try lia; discriminate Hm.
Defined.

Lemma ascii_lower_idemp s : ascii_lower (ascii_lower s) = ascii_lower s.
Proof.
  unfold ascii_lower. rewrite <- list_fmap_compose. apply list_fmap_ext.
  intros _ c _. simpl.
  destruct ((65 <=? c) && (c <=? 90)) eqn:E; [|by rewrite E].
  apply andb_prop in E as [H1%N.leb_le H2%N.leb_le].
  replace (c + 32 <=? 90) with false; [by rewrite andb_false_r|].
  symmetry. apply N.leb_gt. lia.
Qed.

(** [construct_mapping]: the pairs are hashed in order and assigned to an
    empty ordered dict. *)
Lemma OrderedDict_traverse ps d :
  OrderedDict ps d =
    (hs ← traverse hashed ps; Ok (fold_left (λ d p, od_set p.1 p.2 d) hs d)).
Proof.
  revert d. induction ps as [|[k v] ps IH]; intros d; [done|].
  cbn [OrderedDict traverse].
  assert (hashed (k, v) = (k' ← hashable k; Ok (k', v))) as -> by reflexivity.
  destruct (hashable k) as [k'|e]; [|reflexivity]. cbn [mbind result_bind].
  rewrite IH. by destruct (traverse hashed ps).
Qed.

(** The mapping [construct_mapping] builds keeps the keys in order of
    first appearance, once each, with the value of the last pair. *)
Lemma construct_mapping_order ps d :
  OrderedDict ps [] = Ok d →
  ∃ hs, traverse hashed ps = Ok hs ∧
    od_keys d = first_seen hs.*1 ∧ NoDup (od_keys d) ∧
    ∀ k, od_get k d = last_value k hs.
Proof.
  rewrite OrderedDict_traverse.
  destruct (traverse hashed ps) as [hs|e]; simpl; [|done].
  intros [= <-]. exists hs. split_and!; [done| | |].
  - apply od_keys_of_pairs.
  - fold (od_of_pairs hs). rewrite od_keys_of_pairs. apply NoDup_first_seen.
  - intros k. apply od_get_of_pairs.
Qed.

(** C4: the keys of the output of [_parse_metadata] are lower-cased source
    keys (fixed by [lower] when lower-casing is idempotent) and pairwise
    distinct; they come in the order in which the lower-cased names first
    appear in the source mapping; when two source keys have the same
    lower-cased name, the name stays where the first of them put it and
    holds the value of the last of them. *)
Theorem C4_keys_lowercase_unique_ordered host meta out :
  _parse_metadata host meta = Ok out →
  let names := lowered_keys host meta in
  length names = length meta ∧
  od_keys out = first_seen names ∧
  NoDup (od_keys out) ∧
  (∀ name, name ∈ od_keys out →
     ∃ k0 v, (KStr k0, v) ∈ meta ∧ name = lower host k0) ∧
  ((∀ s, lower host (lower host s) = lower host s) →
     ∀ name, name ∈ od_keys out → lower host name = name) ∧
  (∀ i name, names !! i = Some name →
     (∀ j, (j < i)%nat → names !! j ≠ Some name) →
     ∃ rest, od_keys out = first_seen (take i names) ++ name :: rest) ∧
  (∀ i j ki vi kj vj,
     (i < j)%nat → meta !! i = Some (KStr ki, vi) → meta !! j = Some (KStr kj, vj) →
     lower host ki = lower host kj →
     (∀ j' k' v', (j < j')%nat → meta !! j' = Some (KStr k', v') →
                  lower host k' ≠ lower host kj) →
     ∃ w, field_value host (lower host kj) vj = Ok w ∧
          od_get (lower host kj) out = Some w).
Proof.
  intros (fs & Hfs & ->)%parse_metadata_Ok names.
  assert (names = fs.*1) as Hnames by (by apply lowered_keys_fields).
  assert (∀ name, name ∈ od_keys (od_of_pairs fs) →
            ∃ k0 v, (KStr k0, v) ∈ meta ∧ name = lower host k0) as Hsrc.
  { intros name. rewrite od_keys_of_pairs, elem_of_first_seen.
    intros ([name' w] & -> & Hin)%list_elem_of_fmap.
    apply list_elem_of_lookup in Hin as [i Hi].
    destruct (traverse_lookup_inv _ _ _ _ _ Hfs Hi) as ([k v] & Hm & Hf).
    apply field_Ok in Hf as (k0 & -> & -> & _).
    exists k0, v. split; [|done]. by eapply list_elem_of_lookup_2. }
  split_and!.
  - rewrite Hnames, length_fmap. by eapply traverse_length.
  - rewrite Hnames. apply od_keys_of_pairs.
  - rewrite od_keys_of_pairs. apply NoDup_first_seen.
  - exact Hsrc.
  - intros Hidem name (k0 & v & _ & ->)%Hsrc. apply Hidem.
  - intros i name Hi Hfirst. rewrite od_keys_of_pairs, <- Hnames.
    exists (filter (λ k, k ∉ take i names)
              (filter (λ k', k' ≠ name) (first_seen (drop (S i) names)))).
    transitivity (first_seen (take i names ++ name :: drop (S i) names));
      [by rewrite take_drop_middle|].
    rewrite first_seen_app. cbn [first_seen]. rewrite filter_cons_True; [done|].
    intros [j Hj]%list_elem_of_lookup. apply lookup_take_Some in Hj as [Hj Hlt].
    by apply (Hfirst j).
  - intros i j ki vi kj vj Hij Hi Hj Heq Hlast.
    destruct (traverse_lookup _ _ _ _ _ Hfs Hj) as ([name w] & Hf & Hfj).
    apply field_Ok in Hf as (k0 & [= <-] & -> & Hw).
    exists w. split; [done|]. by eapply parse_metadata_last.
Qed.

Lemma C4_keys_lowercase_unique_ordered_witness :
  let host := sample_host [] None in
  let meta := [(KStr (codes "Title"), VStr (codes "x"));
               (KStr (codes "summary"), VStr (codes "s"));
               (KStr (codes "title"), VStr (codes "y"))] in
  let out := [(codes "title", VStr (codes "y"));
              (codes "summary", VStr (codes "<p>s</p>"))] in
  _parse_metadata host meta = Ok out ∧
  od_keys out = first_seen [codes "title"; codes "summary"; codes "title"] ∧
  NoDup (od_keys out) ∧
  (∀ name, name ∈ od_keys out → ascii_lower name = name) ∧
  ∃ w, od_get (codes "title") out = Some w.
Proof.
  intros host meta out.
  assert (_parse_metadata host meta = Ok out) as Hrun by (vm_compute; reflexivity).
  destruct (C4_keys_lowercase_unique_ordered host meta out Hrun)
    as (_ & Hkeys & Hnodup & _ & Hlow & _ & Hlast).
  split_and!; [exact Hrun|exact Hkeys|exact Hnodup| |].
  - apply Hlow. apply ascii_lower_idemp.
  - destruct (Hlast 0%nat 2%nat (codes "Title") (VStr (codes "x"))
                (codes "title") (VStr (codes "y"))) as (w & _ & Hw).
    + lia.
    + reflexivity.
    + reflexivity.
    + reflexivity.
    + intros [|[|[|j']]] k' v' Hj Hm; try lia; discriminate Hm.
    + exists w. exact Hw.
Defined.

(** ** Rendering sites *)

Lemma read_Ok host text body out :
  read host text = Ok (body, out) ↔
  ∃ meta content, _parse host text = Ok (meta, content) ∧
    body = strip (convert host content) ∧ _parse_metadata host meta = Ok out.
Proof.
  unfold read. destruct (_parse host text) as [[meta content]|e]; simpl.
  - destruct (_parse_metadata host meta) as [out'|e] eqn:E; simpl.
    + split.
      * intros [= <- <-]. by exists meta, content.
      * intros (? & ? & [= <- <-] & -> & E'). rewrite E in E'. by injection E' as ->.
    + split; [done|]. intros (? & ? & [= <- <-] & _ & E'). by rewrite E in E'.
  - split; [done|]. by intros (? & ? & ? & _).
Qed.

Lemma tag_not_builtin host (tag : str) :
  tag ≠ MD_TAG → tag ≠ STR_TAG → tag ∉ external_tags host →
  loader_class host !! tag = None.
Proof.
  intros Hmd Hstr Hext. rewrite loader_class_builtin by done.
  unfold builtin_registrations.
  destruct (default true (FRONTMARK_PARSE_LITERAL host)); simpl;
    rewrite ?decide_False by done; done.
Qed.

(** The root mapping when no collaborator took over the mapping tag:
    keys and values are constructed pair by pair, then [construct_mapping]
    builds the ordered dict. *)
Lemma construct_mapping_node host pairs :
  MAP_TAG ∉ external_tags host →
  construct_object host (loader_class host) (MappingNode MAP_TAG pairs) =
    (ps ← traverse (λ kv, k ← construct_object host (loader_class host) kv.1;
                          v ← construct_object host (loader_class host) kv.2;
                          Ok (k, v)) pairs;
     VDict <$> OrderedDict ps []).
Proof.
  intros Hext. cbn [construct_object node_tag].
  rewrite tag_not_builtin by done.
  rewrite decide_False by done. rewrite decide_True by done.
  unfold construct_mapping, construct_pairs.
  by destruct (traverse _ pairs).
Qed.

(** A scalar with the [!md] or the string tag, under the built-in
    handlers: rendered once or not at all. *)
Lemma construct_scalar_passes host tag raw style :
  tag = MD_TAG ∨ tag = STR_TAG →
  MD_TAG ∉ external_tags host → STR_TAG ∉ external_tags host →
  construct_object host (loader_class host) (ScalarNode tag raw style) =
    Ok (VStr (passes host (rendered_by_loader host tag style) raw)).
Proof.
  intros [->| ->] Hmd Hstr.
  - rewrite construct_md_scalar by done. unfold rendered_by_loader.
    by rewrite bool_decide_eq_true_2 by done.
  - rewrite construct_str_scalar by done. unfold rendered_by_loader.
    rewrite (bool_decide_eq_false_2 (STR_TAG = MD_TAG)) by done.
    rewrite (bool_decide_eq_true_2 (STR_TAG = STR_TAG)) by done.
    reflexivity.
Qed.

Lemma od_lookup_unique {K V} (d : list (K * V)) i j k v v' :
  NoDup (od_keys d) → d !! i = Some (k, v) → d !! j = Some (k, v') → i = j.
Proof.
  intros Hnd Hi Hj. apply (NoDup_lookup (od_keys d) i j k Hnd); unfold od_keys;
    rewrite list_lookup_fmap; [by rewrite Hi|by rewrite Hj].
Qed.

Lemma hashable_str v s : hashable v = Ok (KStr s) → v = VStr s.
Proof. destruct v; simpl; try done. by intros [= ->]. Qed.

Lemma construct_pair_Ok host ctors kn vn k v :
  (k' ← construct_object host ctors kn;
   v' ← construct_object host ctors vn; Ok (k', v')) = Ok (k, v) →
  construct_object host ctors kn = Ok k ∧ construct_object host ctors vn = Ok v.
Proof.
  destruct (construct_object host ctors kn); simpl; [|done].
  destruct (construct_object host ctors vn); simpl; [|done].
  by intros [= -> ->].
Qed.

(** A field whose lower-cased name no other pair of the front matter has:
    the loader hands its value as it constructed it to [_parse_metadata],
    whose loop processes it once. *)
Lemma unique_field_value host pairs ps d out i kn vn k v1 :
  traverse (λ kv, k ← construct_object host (loader_class host) kv.1;
                  v ← construct_object host (loader_class host) kv.2;
                  Ok (k, v)) pairs = Ok ps →
  OrderedDict ps [] = Ok d →
  _parse_metadata host d = Ok out →
  pairs !! i = Some (kn, vn) →
  construct_object host (loader_class host) kn = Ok (VStr k) →
  construct_object host (loader_class host) vn = Ok (VStr v1) →
  (∀ j kn' vn' k', j ≠ i → pairs !! j = Some (kn', vn') →
     construct_object host (loader_class host) kn' = Ok (VStr k') →
     lower host k' ≠ lower host k) →
  ∃ w, field_value host (lower host k) (VStr v1) = Ok w ∧
       od_get (lower host k) out = Some w.
Proof.
  intros Hps Hd Hpm Hi Hk Hv Huniq.
  destruct (traverse_lookup _ _ _ _ _ Hps Hi) as ([kv vv] & Hf & Hpi).
  simpl in Hf. rewrite Hk, Hv in Hf. injection Hf as <- <-.
  destruct (construct_mapping_order _ _ Hd) as (hs & Hhs & Hkeys & Hnodup & Hget).
  destruct (traverse_lookup _ _ _ _ _ Hhs Hpi) as ([hk hv] & Hh & Hhi).
  injection Hh as <- <-.
  assert (∀ j p s, hs !! j = Some p → j ≠ i → p.1 = KStr s →
            lower host s ≠ lower host k) as Hother.
  { intros j [pk pv] s Hj Hne Hs. simpl in Hs. subst pk.
    destruct (traverse_lookup_inv _ _ _ _ _ Hhs Hj) as ([kv' vv'] & Hpj & Hh).
    unfold hashed in Hh. simpl in Hh.
    destruct (hashable kv') as [hk'|] eqn:Ehk; simpl in Hh; [|done].
    injection Hh as -> ->. apply hashable_str in Ehk as ->.
    destruct (traverse_lookup_inv _ _ _ _ _ Hps Hpj) as ([kn' vn'] & Hpairs & Hc).
    apply construct_pair_Ok in Hc as [Hkn' _]. by eapply Huniq. }
  assert (od_get (KStr k) d = Some (VStr v1)) as Hdk.
  { rewrite Hget. apply last_value_Some. exists i. split; [done|].
    intros j p Hj Hp Heq. apply (Hother j p k Hp); [lia|done|done]. }
  apply od_get_Some, list_elem_of_lookup in Hdk as [i' Hi'].
  apply parse_metadata_Ok in Hpm as (fs & Hfs & ->).
  destruct (traverse_lookup _ _ _ _ _ Hfs Hi') as ([name w] & Hf & Hfi).
  apply field_Ok in Hf as (k0 & [= <-] & -> & Hw).
  exists w. split; [done|]. eapply parse_metadata_last; [done|done|].
  intros j k' v' Hj Hdj.
  assert (KStr k' ∈ hs.*1) as Hin.
  { apply elem_of_first_seen. rewrite <- Hkeys. unfold od_keys.
    apply list_elem_of_fmap. exists (KStr k', v'). split; [done|].
    by eapply list_elem_of_lookup_2. }
  apply list_elem_of_fmap in Hin as ([pk pv] & Hpk & Hin). simpl in Hpk. subst pk.
  apply list_elem_of_lookup in Hin as [jj Hjj].
  destruct (decide (jj = i)) as [->|Hne].
  - rewrite Hhi in Hjj. injection Hjj as <- _.
    pose proof (od_lookup_unique _ _ _ _ _ _ Hnodup Hi' Hdj). lia.
  - by apply (Hother jj (KStr k', pv) k').
Qed.

(** C2, as stated, fails: the field [summary] of the sample document is
    named in FORMATTED_FIELDS and written as a literal block, literal
    parsing is on; the loader renders its text once, [_parse_metadata]
    renders the result again. *)
Lemma C2_rendered_twice_counterexample :
  let host := sample_host [] None in
  let raw := codes "*hi*" ++ [NEWLINE] in
  codes "summary" ∈ FORMATTED_FIELDS host ∧
  rendered_by_loader host STR_TAG (Some (codes "|")) = true ∧
  ∃ body out v,
    read host doc_fields = Ok (body, out) ∧
    od_get (codes "summary") out = Some v ∧
    v = VStr (render_pass host (render_pass host raw)) ∧
    ¬ rendered_at_most_once host (codes "summary") raw v.
Proof.
  intros host raw. split_and!.
  - apply list_elem_of_singleton. reflexivity.
  - vm_compute. reflexivity.
  - eexists _, _, _. split_and!.
    + vm_compute. reflexivity.
    + vm_compute. reflexivity.
    + vm_compute. reflexivity.
    + intros [H|H]; vm_compute in H; discriminate H.
Qed.

(** C2, amended.  Take a document with front matter whose root is a YAML
    mapping, read without exception, with the built-in handlers in force:
    no handler contributed through [frontmark_yaml_register] is registered
    for the mapping tag, for [!md] or for the string tag.  The body is
    rendered exactly once.  For a field whose value is a scalar tagged
    [!md] or with the string tag, and whose key is a string with a
    lower-cased form that no other key of the front matter has, the text
    of the scalar is rendered once at each rendering site it meets: by the
    loader when it is tagged [!md] or is a literal block with
    FRONTMARK_PARSE_LITERAL on, and by [_parse_metadata] when its
    lower-cased key is in FORMATTED_FIELDS.  The two sites do not know of
    each other, so a field that meets both is rendered twice: its output
    is [hook(strip(render(strip(render(raw)))))]. *)
Theorem C2_one_pass_per_rendering_site
    host text a fm content pairs i kn k tag raw style body out :
  startswith (strip text) DELIMITER = true →
  BOUNDARY_split (strip text) 2 = [a; fm; content] →
  compose host fm = Ok (Some (MappingNode MAP_TAG pairs)) →
  MAP_TAG ∉ external_tags host →
  MD_TAG ∉ external_tags host →
  STR_TAG ∉ external_tags host →
  pairs !! i = Some (kn, ScalarNode tag raw style) →
  tag = MD_TAG ∨ tag = STR_TAG →
  construct_object host (loader_class host) kn = Ok (VStr k) →
  (∀ j kn' vn' k', j ≠ i → pairs !! j = Some (kn', vn') →
     construct_object host (loader_class host) kn' = Ok (VStr k') →
     lower host k' ≠ lower host k) →
  read host text = Ok (body, out) →
  body = strip (convert host content) ∧
  (∃ w, process_metadata host (lower host k)
          (VStr (passes host (bool_decide (lower host k ∈ FORMATTED_FIELDS host))
                   (passes host (rendered_by_loader host tag style) raw))) = Ok w ∧
        od_get (lower host k) out = Some w) ∧
  (rendered_by_loader host tag style = true →
   lower host k ∈ FORMATTED_FIELDS host →
   ∃ w, process_metadata host (lower host k)
          (VStr (strip (convert host (strip (convert host raw))))) = Ok w ∧
        od_get (lower host k) out = Some w).
Proof.
  intros Hs Hsplit Hcomp Hmap Hmd Hstr Hi Htag Hk Huniq Hread.
  apply read_Ok in Hread as (meta & c & Hparse & -> & Hpm).
  rewrite (parse_delimited _ _ _ _ _ Hs Hsplit) in Hparse.
  unfold yaml_load in Hparse. rewrite Hcomp in Hparse. cbn [mbind result_bind] in Hparse.
  rewrite construct_mapping_node in Hparse by done.
  destruct (traverse _ pairs) as [ps|e] eqn:Hps; [|done].
  cbn [mbind result_bind] in Hparse.
  destruct (OrderedDict ps []) as [d|e] eqn:Hd; [|done].
  injection Hparse as <- <-.
  pose proof (construct_scalar_passes host tag raw style Htag Hmd Hstr) as Hv.
  destruct (unique_field_value _ _ _ _ _ _ _ _ _ _ Hps Hd Hpm Hi Hk Hv Huniq)
    as (w & Hw & Hout).
  assert (process_metadata host (lower host k)
            (VStr (passes host (bool_decide (lower host k ∈ FORMATTED_FIELDS host))
                     (passes host (rendered_by_loader host tag style) raw))) = Ok w) as Hhook.
  { apply field_value_Ok in Hw.
    destruct (bool_decide (lower host k ∈ FORMATTED_FIELDS host)); [|done].
    by destruct Hw as (s & [= <-] & Hw). }
  split_and!; [done|by exists w|].
  intros Hloader Hff. exists w. split; [|done].
  by rewrite Hloader, bool_decide_eq_true_2 in Hhook.
Qed.

Lemma C2_one_pass_per_rendering_site_witness :
  let host := sample_host [] None in
  let raw := codes "*hi*" ++ [NEWLINE] in
  ∃ body out w,
    read host doc_fields = Ok (body, out) ∧
    process_metadata host (codes "summary")
      (VStr (strip (convert host (strip (convert host raw))))) = Ok w ∧
    od_get (codes "summary") out = Some w.
Proof.
  intros host raw.
  destruct (read host doc_fields) as [[body out]|e] eqn:Hread;
    [|vm_compute in Hread; discriminate Hread].
  assert (∀ t : str, t ∉ external_tags host) as Hext by (intros t; apply not_elem_of_nil).
  destruct (C2_one_pass_per_rendering_site host doc_fields [] fm_fields
              (drop 54 (strip doc_fields))
              [(plain "Title", plain "x");
               (plain "summary", literal ["*hi*"]);
               (plain "note", plain "_hi_");
               (plain "title", plain "z")]
              1%nat (plain "summary") (codes "summary") STR_TAG raw
              (Some (codes "|")) body out) as (_ & _ & Htwice).
  - vm_compute. reflexivity.
  - vm_compute. reflexivity.
  - vm_compute. reflexivity.
  - apply Hext.
  - apply Hext.
  - apply Hext.
  - reflexivity.
  - by right.
  - vm_compute. reflexivity.
  - intros [|[|[|[|j]]]] kn' vn' k' Hj Hp Hc; try done;
      injection Hp as <- <-; vm_compute in Hc; injection Hc as <-;
      vm_compute; discriminate.
  - exact Hread.
  - destruct Htwice as (w & Hw & Hout).
    + vm_compute. reflexivity.
    + apply list_elem_of_singleton. reflexivity.
    + by exists body, out, w.
Defined.

(** ** The constructor and the settings of its caller *)

Lemma M_bind_Ok {A B} (m : M A) (f : A → M B) σ a σ' :
  m σ = (Ok a, σ') → (m ≫= f) σ = f a σ'.
Proof. intros Hm. unfold mbind, M_bind. by rewrite Hm. Qed.

Lemma getitem_Ok σ d k es r :
  σ !! d = Some (ODict es) → od_get k es = Some r → getitem d k σ = (Ok r, σ).
Proof. intros Hd Hk. unfold getitem. by rewrite Hd, Hk. Qed.

Lemma keys_Ok σ d es : σ !! d = Some (ODict es) → keys d σ = (Ok (od_keys es), σ).
Proof. intros Hd. unfold keys. by rewrite Hd. Qed.

Lemma contains_list σ c xs x :
  σ !! c = Some (OList xs) → contains c x σ = (Ok (bool_decide (x ∈ xs)), σ).
Proof. intros Hc. unfold contains. by rewrite Hc. Qed.

Lemma append_list σ l xs x :
  σ !! l = Some (OList xs) → append l x σ = (Ok (), <[l := OList (xs ++ [x])]> σ).
Proof. intros Hl. unfold append. by rewrite Hl. Qed.

(** One conditional append: the list object [e] receives [x] unless it
    holds it already; nothing else is written. *)
Lemma append_if_missing (σ : store) m md e xs x :
  σ !! m = Some (ODict md) → od_get EXTENSIONS md = Some e →
  σ !! e = Some (OList xs) →
  (exts ← getitem m EXTENSIONS;
   present ← contains exts x;
   if (present : bool) then mret ()
   else exts ← getitem m EXTENSIONS; append exts x) σ
  = (Ok (), <[e := OList (add_missing x xs)]> σ).
Proof.
  intros Hm He Hxs.
  rewrite (M_bind_Ok _ _ _ _ _ (getitem_Ok _ _ _ _ _ Hm He)).
  rewrite (M_bind_Ok _ _ _ _ _ (contains_list _ _ _ x Hxs)).
  unfold add_missing. destruct (bool_decide (x ∈ xs)).
  - by rewrite insert_id.
  - rewrite (M_bind_Ok _ _ _ _ _ (getitem_Ok _ _ _ _ _ Hm He)).
    by apply append_list.
Qed.

Lemma for_each_append (σ : store) m md e names xs :
  σ !! m = Some (ODict md) → od_get EXTENSIONS md = Some e →
  σ !! e = Some (OList xs) →
  for_each names (λ extension,
     exts ← getitem m EXTENSIONS;
     present ← contains exts extension;
     if (present : bool) then mret ()
     else exts ← getitem m EXTENSIONS; append exts extension) σ
  = (Ok (), <[e := OList (fold_left (λ acc x, add_missing x acc) names xs)]> σ).
Proof.
  intros Hm He. revert σ xs Hm.
  induction names as [|x names IH]; intros σ xs Hm Hxs; simpl.
  - by rewrite insert_id.
  - assert (e ≠ m) as Hne by (intros ->; congruence).
    erewrite M_bind_Ok; [|by eapply append_if_missing].
    rewrite (IH _ (add_missing x xs)).
    + by rewrite insert_insert_eq.
    + by rewrite lookup_insert_ne.
    + by rewrite lookup_insert_eq.
Qed.

Lemma setdefault_present σ d k init es r :
  σ !! d = Some (ODict es) → od_get k es = Some r →
  setdefault d k init σ = (Ok r, σ).
Proof. intros Hd Hk. unfold setdefault. by rewrite Hd, Hk. Qed.

Lemma setdefault_absent (σ : store) d k init es :
  σ !! d = Some (ODict es) → od_get k es = None →
  setdefault d k init σ =
    (Ok (fresh (dom σ)),
     <[d := ODict (od_set k (fresh (dom σ)) es)]> (<[fresh (dom σ) := init]> σ)).
Proof. intros Hd Hk. unfold setdefault. by rewrite Hd, Hk. Qed.

Lemma fresh_not_in (σ : store) : σ !! fresh (dom σ) = None.
Proof. apply not_elem_of_dom. apply is_fresh. Qed.

(** The constructor once both keys are there: the list object of
    [extensions] is overwritten with the normalised list. *)
Lemma init_tail (ρ : store) r m md c cfgs e xs :
  ρ !! m = Some (ODict md) →
  od_get EXTENSION_CONFIGS md = Some c → ρ !! c = Some (ODict cfgs) →
  od_get EXTENSIONS md = Some e → ρ !! e = Some (OList xs) →
  (configs ← getitem m EXTENSION_CONFIGS;
   names ← keys configs;
   _ ← for_each names (λ extension,
         exts ← getitem m EXTENSIONS;
         present ← contains exts extension;
         if (present : bool) then mret ()
         else exts ← getitem m EXTENSIONS; append exts extension);
   exts ← getitem m EXTENSIONS;
   present ← contains exts META;
   _ ← (if (present : bool) then mret ()
        else exts ← getitem m EXTENSIONS; append exts META);
   mret {| settings := r |}) ρ
  = (Ok {| settings := r |},
     <[e := OList (normalize_extensions (od_keys cfgs) xs)]> ρ).
Proof.
  intros Hm Hc Hcfgs He Hxs.
  assert (e ≠ m) as Hne by (intros ->; congruence).
  rewrite (M_bind_Ok _ _ _ _ _ (getitem_Ok _ _ _ _ _ Hm Hc)).
  rewrite (M_bind_Ok _ _ _ _ _ (keys_Ok _ _ _ Hcfgs)).
  rewrite (M_bind_Ok _ _ _ _ _ (for_each_append _ _ _ _ (od_keys cfgs) _ Hm He Hxs)).
  set (xs1 := fold_left (λ acc x, add_missing x acc) (od_keys cfgs) xs).
  set (ρ1 := <[e := OList xs1]> ρ).
  assert (ρ1 !! m = Some (ODict md)) as Hm1 by (unfold ρ1; by rewrite lookup_insert_ne).
  assert (ρ1 !! e = Some (OList xs1)) as He1 by (unfold ρ1; by rewrite lookup_insert_eq).
  rewrite (M_bind_Ok _ _ _ _ _ (getitem_Ok _ _ _ _ _ Hm1 He)).
  rewrite (M_bind_Ok _ _ _ _ _ (contains_list _ _ _ META He1)).
  change (normalize_extensions (od_keys cfgs) xs) with (add_missing META xs1).
  unfold add_missing at 1.
  destruct (bool_decide (META ∈ xs1)).
  - reflexivity.
  - erewrite M_bind_Ok.
    2:{ erewrite M_bind_Ok; [|by eapply getitem_Ok]. by apply append_list. }
    unfold ρ1. by rewrite insert_insert_eq.
Qed.

(** [setdefault] on the dict [m]: afterwards the key is there; either it
    was there and nothing changed, or a fresh object was allocated for it.
    The objects that existed, other than [m], are left as they were. *)
Lemma setdefault_step (σ : store) m md k init :
  σ !! m = Some (ODict md) →
  ∃ ρ md' f,
    setdefault m k init σ = (Ok f, ρ) ∧
    ρ !! m = Some (ODict md') ∧ od_get k md' = Some f ∧
    (∀ k', k' ≠ k → od_get k' md' = od_get k' md) ∧
    (∀ x, x ≠ m → is_Some (σ !! x) → ρ !! x = σ !! x) ∧
    ((od_get k md = Some f ∧ ρ = σ) ∨
     (od_get k md = None ∧ σ !! f = None ∧ f ≠ m ∧ ρ !! f = Some init)).
Proof.
  intros Hm. destruct (od_get k md) as [f|] eqn:Hk.
  - exists σ, md, f. rewrite (setdefault_present _ _ _ _ _ _ Hm Hk).
    split_and!; [done|done|done|done|done|by left].
  - set (f := fresh (dom σ)).
    assert (σ !! f = None) as Hf by apply fresh_not_in.
    assert (f ≠ m) as Hfm by (intros Heq; rewrite Heq in Hf; congruence).
    exists (<[m := ODict (od_set k f md)]> (<[f := init]> σ)), (od_set k f md), f.
    rewrite (setdefault_absent _ _ _ _ _ Hm Hk). split_and!.
    + done.
    + by rewrite lookup_insert_eq.
    + rewrite od_get_set. by rewrite decide_True.
    + intros k' Hk'. rewrite od_get_set. by rewrite decide_False.
    + intros x Hxm [o Hx]. rewrite lookup_insert_ne by done.
      rewrite lookup_insert_ne; [done|]. intros Heq. rewrite <- Heq in Hx. congruence.
    + right. split_and!; [done|done|done|].
      rewrite lookup_insert_ne by done. by rewrite lookup_insert_eq.
Qed.

Lemma markdown_entry_lookup (σ : store) r top m md k :
  σ !! r = Some (ODict top) → od_get MARKDOWN top = Some m →
  σ !! m = Some (ODict md) →
  markdown_entry σ r k = (x ← od_get k md; σ !! x).
Proof. intros Hr Hm Hmd. unfold markdown_entry. rewrite Hr, Hm. simpl. by rewrite Hmd. Qed.

(** The run of the constructor on accepted settings, with the store
    [ρ] reached after the two [setdefault] calls. *)
Lemma init_run (σ : store) r top m md :
  σ !! r = Some (ODict top) → od_get MARKDOWN top = Some m → m ≠ r →
  σ !! m = Some (ODict md) →
  (∀ c, od_get EXTENSION_CONFIGS md = Some c →
        c ≠ m ∧ ∃ cfgs, σ !! c = Some (ODict cfgs)) →
  (∀ e, od_get EXTENSIONS md = Some e → ∃ xs, σ !! e = Some (OList xs)) →
  ∃ ρ md' c cfgs e xs,
    __init__ r σ = (Ok {| settings := r |},
                    <[e := OList (normalize_extensions (od_keys cfgs) xs)]> ρ) ∧
    ρ !! r = Some (ODict top) ∧ ρ !! m = Some (ODict md') ∧
    od_get EXTENSION_CONFIGS md' = Some c ∧ ρ !! c = Some (ODict cfgs) ∧
    od_get EXTENSIONS md' = Some e ∧ ρ !! e = Some (OList xs) ∧
    od_keys cfgs = config_names σ r ∧ xs = extension_list σ r ∧
    ((od_get EXTENSION_CONFIGS md = Some c ∧ od_get EXTENSIONS md = Some e ∧ ρ = σ) ∨
     ((od_get EXTENSION_CONFIGS md = None ∨ od_get EXTENSIONS md = None) ∧
      ∃ f, σ !! f = None ∧ is_Some (ρ !! f))).
Proof.
  intros Hr Htop Hmr Hm Hcfg Hext.
  assert (EXTENSIONS ≠ EXTENSION_CONFIGS) as Hkeys by done.
  destruct (setdefault_step σ m md EXTENSION_CONFIGS (ODict []) Hm)
    as (ρ1 & md1 & c & Hset1 & Hm1 & Hc1 & Hother1 & Hframe1 & Hcase1).
  destruct (setdefault_step ρ1 m md1 EXTENSIONS (OList []) Hm1)
    as (ρ2 & md2 & e & Hset2 & Hm2 & He2 & Hother2 & Hframe2 & Hcase2).
  assert (od_get EXTENSION_CONFIGS md2 = Some c) as Hc2.
  { rewrite Hother2 by done. done. }
  assert (od_get EXTENSIONS md1 = od_get EXTENSIONS md) as Hext1 by (by apply Hother1).
  (* the configuration dict *)
  assert (∃ cfgs, ρ1 !! c = Some (ODict cfgs) ∧ c ≠ m ∧
                  od_keys cfgs = config_names σ r) as (cfgs & Hcfgs1 & Hcm & Hnames).
  { unfold config_names. rewrite (markdown_entry_lookup _ _ _ _ _ _ Hr Htop Hm).
    destruct Hcase1 as [[Hc ->]|(Hc & Hfresh & Hne & Hnew)].
    - destruct (Hcfg c Hc) as [Hne [cfgs Hcfgs]]. exists cfgs.
      rewrite Hc. simpl. by rewrite Hcfgs.
    - exists []. by rewrite Hc. }
  assert (ρ2 !! c = Some (ODict cfgs)) as Hcfgs2.
  { rewrite Hframe2; [done|done|by rewrite Hcfgs1]. }
  (* the list of extensions *)
  assert (∃ xs, ρ2 !! e = Some (OList xs) ∧ xs = extension_list σ r) as (xs & Hxs2 & Hxs).
  { unfold extension_list. rewrite (markdown_entry_lookup _ _ _ _ _ _ Hr Htop Hm).
    destruct Hcase2 as [[He ->]|(He & Hfresh & Hne & Hnew)].
    - rewrite Hext1 in He. destruct (Hext e He) as [xs Hxs]. exists xs.
      assert (ρ1 !! e = Some (OList xs)) as Hxs1.
      { rewrite Hframe1; [done| |by rewrite Hxs]. intros ->. congruence. }
      rewrite He. simpl. by rewrite Hxs.
    - exists []. rewrite Hext1 in He. by rewrite He. }
  assert (ρ2 !! r = Some (ODict top)) as Hr2.
  { rewrite Hframe2, Hframe1; [done|done|by rewrite Hr|done|].
    rewrite Hframe1; [by rewrite Hr|done|by rewrite Hr]. }
  exists ρ2, md2, c, cfgs, e, xs. split_and!; try done.
  - unfold __init__. cbn [settings].
    rewrite (M_bind_Ok _ _ _ _ _ (getitem_Ok _ _ _ _ _ Hr Htop)).
    rewrite (M_bind_Ok _ _ _ _ _ Hset1).
    rewrite (M_bind_Ok _ _ _ _ _ Hset2).
    by apply (init_tail ρ2 r m md2 c cfgs e xs).
  - destruct Hcase1 as [[Hc ->]|(Hc & Hfresh1 & Hne1 & Hnew1)].
    + destruct Hcase2 as [[He ->]|(He & Hfresh2 & Hne2 & Hnew2)].
      * left. by rewrite <- Hext1.
      * right. split; [right; by rewrite <- Hext1|].
        exists e. split; [done|]. by rewrite Hnew2.
    + right. split; [by left|]. exists c. split; [done|]. by rewrite Hcfgs2.
Qed.

(** C1, as stated, fails: constructing the reader on settings whose
    MARKDOWN entry has no list of extensions leaves the settings object
    of the caller with one. *)
Lemma C1_caller_settings_mutated_counterexample :
  let run := __init__ 0%nat sample_store in
  run.1 = Ok {| settings := 0%nat |} ∧
  markdown_entry sample_store 0%nat EXTENSIONS = None ∧
  markdown_entry run.2 0%nat EXTENSIONS =
    Some (OList [codes "markdown.extensions.codehilite"; META]) ∧
  run.2 ≠ sample_store.
Proof.
  intros run.
  assert (markdown_entry run.2 0%nat EXTENSIONS =
    Some (OList [codes "markdown.extensions.codehilite"; META])) as Hafter
    by (vm_compute; reflexivity).
  split_and!; [vm_compute; reflexivity|vm_compute; reflexivity|exact Hafter|].
  intros Heq. rewrite Heq in Hafter. vm_compute in Hafter. discriminate Hafter.
Qed.

(** C1, amended: the normalisation is done in place, on the settings
    object of the caller, to which the reader keeps a reference.  After
    the construction the caller reads, as list of extensions, the list it
    had (empty if it had none) followed by every name of
    [extension_configs] that was missing and by the meta extension if it
    was missing; the names that have a configuration are the same as
    before.  The store is left as it was exactly when both entries
    existed and nothing was missing. *)
Theorem C1_normalization_in_place (σ : store) r :
  settings_ok σ r →
  ∃ σ',
    __init__ r σ = (Ok {| settings := r |}, σ') ∧
    markdown_entry σ' r EXTENSIONS =
      Some (OList (normalize_extensions (config_names σ r) (extension_list σ r))) ∧
    config_names σ' r = config_names σ r ∧
    (σ' = σ ↔ normalized σ r).
Proof.
  intros (top & m & md & Hr & Htop & Hmr & Hm & Hcfg & Hext).
  destruct (init_run σ r top m md Hr Htop Hmr Hm Hcfg Hext)
    as (ρ & md' & c & cfgs & e & xs & Hrun & Hr' & Hm' & Hc' & Hcfgs & He' & Hxs
        & Hnames & Hlist & Hcase).
  set (N := normalize_extensions (od_keys cfgs) xs) in *.
  set (σ' := <[e := OList N]> ρ) in *.
  assert (e ≠ r) as Her by (intros ->; congruence).
  assert (e ≠ m) as Hem by (intros ->; congruence).
  assert (e ≠ c) as Hec by (intros ->; congruence).
  assert (σ' !! r = Some (ODict top)) as Hr2 by (unfold σ'; by rewrite lookup_insert_ne).
  assert (σ' !! m = Some (ODict md')) as Hm2 by (unfold σ'; by rewrite lookup_insert_ne).
  assert (markdown_entry σ' r EXTENSIONS = Some (OList N)) as Hentry.
  { rewrite (markdown_entry_lookup _ _ _ _ _ _ Hr2 Htop Hm2), He'. simpl.
    unfold σ'. by rewrite lookup_insert_eq. }
  assert (markdown_entry σ' r EXTENSION_CONFIGS = Some (ODict cfgs)) as Hconfigs.
  { rewrite (markdown_entry_lookup _ _ _ _ _ _ Hr2 Htop Hm2), Hc'. simpl.
    unfold σ'. by rewrite lookup_insert_ne. }
  exists σ'. split_and!.
  - exact Hrun.
  - rewrite Hentry. unfold N. by rewrite Hnames, Hlist.
  - unfold config_names at 1. by rewrite Hconfigs.
  - split.
    + intros Heq. unfold normalized. rewrite <- Heq at 1 2.
      rewrite Hconfigs, Hentry. split_and!; [done|done|].
      rewrite <- Hnames, <- Hlist. fold N.
      rewrite Hlist. rewrite <- Heq. unfold extension_list. by rewrite Hentry.
    + intros (Hsc & Hse & Hfix).
      destruct Hcase as [(Hc & He & ->)|[Hnone _]].
      * unfold σ', N. rewrite Hnames, Hlist, Hfix, <- Hlist. by apply insert_id.
      * rewrite (markdown_entry_lookup _ _ _ _ _ EXTENSION_CONFIGS Hr Htop Hm) in Hsc.
        rewrite (markdown_entry_lookup _ _ _ _ _ EXTENSIONS Hr Htop Hm) in Hse.
        destruct Hnone as [Hn|Hn].
        -- rewrite Hn in Hsc. by destruct Hsc.
        -- rewrite Hn in Hse. by destruct Hse.
Qed.

Lemma C1_normalization_in_place_witness :
  (∃ σ', __init__ 0%nat sample_store = (Ok {| settings := 0%nat |}, σ') ∧
     markdown_entry σ' 0%nat EXTENSIONS =
       Some (OList [codes "markdown.extensions.codehilite"; META]) ∧
     σ' ≠ sample_store) ∧
  __init__ 0%nat normal_store = (Ok {| settings := 0%nat |}, normal_store).
Proof.
  split.
  - destruct (C1_normalization_in_place sample_store 0%nat)
      as (σ' & Hrun & Hentry & _ & Hiff).
    + exists [(MARKDOWN, 1%nat)], 1%nat,
        [(EXTENSION_CONFIGS, 2%nat); (codes "output_format", 3%nat)].
      split_and!.
      * vm_compute. reflexivity.
      * vm_compute. reflexivity.
      * discriminate.
      * vm_compute. reflexivity.
      * intros c Hc. vm_compute in Hc. injection Hc as <-. split; [discriminate|].
        exists [(codes "markdown.extensions.codehilite", 4%nat)].
        vm_compute. reflexivity.
      * intros e He. vm_compute in He. discriminate He.
    + exists σ'. split_and!; [exact Hrun|exact Hentry|].
      intros (_ & [o Ho] & _)%Hiff. vm_compute in Ho. discriminate Ho.
  - destruct (C1_normalization_in_place normal_store 0%nat)
      as (σ' & Hrun & _ & _ & Hiff).
    + exists [(MARKDOWN, 1%nat)], 1%nat,
        [(EXTENSION_CONFIGS, 2%nat); (EXTENSIONS, 3%nat)].
      split_and!.
      * vm_compute. reflexivity.
      * vm_compute. reflexivity.
      * discriminate.
      * vm_compute. reflexivity.
      * intros c Hc. vm_compute in Hc. injection Hc as <-. split; [discriminate|].
        exists [(codes "markdown.extensions.codehilite", 4%nat)].
        vm_compute. reflexivity.
      * intros e He. vm_compute in He. injection He as <-.
        exists [codes "markdown.extensions.codehilite"; META].
        vm_compute. reflexivity.
    + rewrite Hrun. f_equal. apply Hiff. split_and!.
      * eexists. vm_compute. reflexivity.
      * eexists. vm_compute. reflexivity.
      * vm_compute. reflexivity.
Defined.

(** ** The reader on the sample documents *)

Example read_doc_tagged_default :
  read (sample_host [] None) doc_tagged = Err ConstructorError.
Proof. vm_compute. reflexivity. Qed.

Example read_doc_tagged_registered :
  read (sample_host [RPair (codes "!up") shout; RMalformed;
                     RPair (codes "!up") whisper] None) doc_tagged
  = Ok (paragraph ([NEWLINE] ++ codes "hello"),
        [(codes "a", VStr (paragraph (codes "one")));
         (codes "b", VStr (codes "(two)"))]).
Proof. vm_compute. reflexivity. Qed.

Example read_doc_fields_literal_off :
  read (sample_host [] (Some false)) doc_fields
  = Ok (paragraph ([NEWLINE] ++ join_lines ["hello"; "---"; "more"]),
        [(codes "title", VStr (codes "z"));
         (codes "summary", VStr (paragraph (codes "*hi*" ++ [NEWLINE])));
         (codes "note", VStr (codes "_hi_"))]).
Proof. vm_compute. reflexivity. Qed.

(** * Further properties of the code *)

(** ** The split loses nothing but the delimiters *)

Lemma startswith_app s p : startswith s p = true → s = p ++ drop (length p) s.
Proof.
  revert s. induction p as [|c p IH]; intros s; simpl; [done|].
  destruct s as [|a s]; [done|]. intros [Hc Hs]%andb_prop.
  apply N.eqb_eq in Hc as ->. simpl. f_equal. by apply IH.
Qed.

Lemma boundary_at_from_delimiter bol text i :
  boundary_at_from bol text i = true →
  text = take i text ++ DELIMITER ++ drop (i + 3) text.
Proof.
  unfold boundary_at_from, boundary_here.
  intros [_ [Hs _]%andb_prop]%andb_prop.
  apply startswith_app in Hs. change (length DELIMITER) with 3%nat in Hs.
  rewrite drop_drop in Hs. rewrite <- Hs. by rewrite take_drop.
Qed.

Lemma split_from_join bol maxsplit text :
  join DELIMITER (split_from bol maxsplit text) = text.
Proof.
  revert bol text. induction maxsplit as [|n IH]; intros bol text; simpl; [done|].
  destruct (find_boundary bol text) as [i|] eqn:E; [|done].
  apply find_boundary_Some_1 in E as [E _].
  assert (join DELIMITER (take i text :: split_from false n (drop (i + 3) text))
          = take i text ++ DELIMITER ++ join DELIMITER (split_from false n (drop (i + 3) text)))
    as ->.
  { simpl. by destruct (split_from false n (drop (i + 3) text)) eqn:Es;
      [destruct n; simpl in Es; [done|by destruct (find_boundary _ _)]|]. }
  rewrite IH. symmetry. by eapply boundary_at_from_delimiter.
Qed.

(** A number of cuts that the text cannot reach is no limit at all. *)
Lemma split_from_fuel n m bol text :
  (length text ≤ n)%nat → (length text ≤ m)%nat →
  split_from bol n text = split_from bol m text.
Proof.
  revert m bol text. induction n as [|n IH]; intros [|m] bol text Hn Hm; simpl.
  - done.
  - destruct text; [done|simpl in Hn; lia].
  - destruct text; [done|simpl in Hm; lia].
  - destruct (find_boundary bol text) as [i|]; [|done].
    f_equal. apply IH; rewrite length_drop; lia.
Qed.

Lemma split_from_length bol n text :
  (1 ≤ length (split_from bol n text) ≤ n + 1)%nat.
Proof.
  revert text bol. induction n as [|n IH]; intros text bol; simpl; [lia|].
  destruct (find_boundary bol text) as [i|]; simpl; [|lia].
  specialize (IH (drop (i + 3) text) false). lia.
Qed.

(** X1: splitting on the boundary pattern loses nothing but the
    delimiters: joining the segments with the delimiter gives the text
    back, whatever [maxsplit] is.  There is at least one segment, and at
    most [maxsplit + 1] when [maxsplit] is positive; [maxsplit = 0] sets
    no limit: it gives what every bound from the length of the text on
    gives. *)
Theorem split_join_roundtrip text maxsplit :
  join DELIMITER (BOUNDARY_split text maxsplit) = text ∧
  (1 ≤ length (BOUNDARY_split text maxsplit))%nat ∧
  ((0 < maxsplit)%nat → (length (BOUNDARY_split text maxsplit) ≤ maxsplit + 1)%nat) ∧
  (∀ n, (length text ≤ n)%nat → BOUNDARY_split text n = BOUNDARY_split text 0).
Proof.
  split_and!.
  - apply split_from_join.
  - apply split_from_length.
  - intros Hpos. destruct maxsplit as [|n]; [lia|]. apply split_from_length.
  - intros n Hn. unfold BOUNDARY_split. destruct n as [|n]; [done|].
    by apply split_from_fuel.
Qed.

Lemma split_join_roundtrip_witness :
  let text := join_lines ["a"; "---"; "b"; "---"; "c"; "---"; "d"] in
  BOUNDARY_split text 0
    = [codes "a" ++ [NEWLINE]; [NEWLINE] ++ codes "b" ++ [NEWLINE];
       [NEWLINE] ++ codes "c" ++ [NEWLINE]; [NEWLINE] ++ codes "d"] ∧
  (length (BOUNDARY_split text 2) ≤ 3)%nat ∧
  BOUNDARY_split text 40 = BOUNDARY_split text 0.
Proof.
  intros text.
  destruct (split_join_roundtrip text 2) as (_ & _ & Hmax & _).
  destruct (split_join_roundtrip text 0) as (_ & _ & _ & Hfuel).
  split_and!.
  - vm_compute. reflexivity.
  - apply Hmax. lia.
  - apply Hfuel. vm_compute. lia.
Defined.

Lemma boundary_here_spec s :
  boundary_here s = true ↔
  s !! 0%nat = Some 45 ∧ s !! 1%nat = Some 45 ∧ s !! 2%nat = Some 45 ∧
  (s !! 3%nat = None ∨ s !! 3%nat = Some NEWLINE).
Proof.
  split.
  - intros Hb. destruct (boundary_here_dashes s Hb) as (H0 & H1 & H2).
    split_and!; try done. unfold boundary_here in Hb.
    apply andb_prop in Hb as [_ Hb].
    destruct s as [|a [|b [|c [|d r]]]]; simpl in *; try done; [by left|].
    right. apply N.eqb_eq in Hb. by subst.
  - intros (H0 & H1 & H2 & H3).
    destruct s as [|a [|b [|c r]]]; simpl in *; try done.
    injection H0 as ->. injection H1 as ->. injection H2 as ->.
    unfold boundary_here. simpl. destruct r as [|d r]; [done|].
    destruct H3 as [H3|H3]; [done|]. simpl in H3. by injection H3 as ->.
Qed.

Lemma split_three_finds t a fm content :
  BOUNDARY_split t 2 = [a; fm; content] →
  ∃ i j', find_boundary true t = Some i ∧
    find_boundary false (drop (i + 3) t) = Some j' ∧
    a = take i t ∧ fm = take j' (drop (i + 3) t) ∧
    content = drop (i + 3 + j' + 3) t.
Proof.
  unfold BOUNDARY_split. simpl.
  destruct (find_boundary true t) as [i|] eqn:Ei; [|done].
  destruct (find_boundary false (drop (i + 3) t)) as [j'|] eqn:Ej; [|done].
  intros [= <- <- <-]. exists i, j'. split_and!; try done.
  rewrite drop_drop. by rewrite Nat.add_assoc.
Qed.

Lemma split_three_two_delimiters t :
  length (BOUNDARY_split t 2) = 3%nat →
  ∃ i j, (i < j)%nat ∧ delimiter_line t i ∧ delimiter_line t j.
Proof.
  unfold BOUNDARY_split. simpl.
  destruct (find_boundary true t) as [i|] eqn:Ei; [|done].
  destruct (find_boundary false (drop (i + 3) t)) as [j'|] eqn:Ej; [|done].
  intros _. apply find_boundary_Some_1 in Ei as [Hi _].
  apply find_boundary_Some_1 in Ej as [Hj _].
  assert (0 < j')%nat as Hpos.
  { destruct j'; [|lia]. unfold boundary_at_from in Hj. simpl in Hj. done. }
  rewrite boundary_at_from_drop in Hj by done.
  exists i, (i + 3 + j')%nat. split_and!; [lia|done|done].
Qed.

(** X2: the split has three segments exactly when the text has two
    delimiter lines; with fewer, or when the trimmed text does not start
    with the delimiter, [_parse] takes the fallback. *)
Theorem three_segments_iff_two_delimiter_lines host text :
  (length (BOUNDARY_split (strip text) 2) = 3%nat ↔
   ∃ i j, (i < j)%nat ∧ delimiter_line (strip text) i ∧ delimiter_line (strip text) j) ∧
  (¬ (startswith (strip text) DELIMITER = true ∧
      ∃ i j, (i < j)%nat ∧ delimiter_line (strip text) i ∧ delimiter_line (strip text) j) →
   _parse host text = Ok ([], strip text)).
Proof.
  assert (length (BOUNDARY_split (strip text) 2) = 3%nat ↔
   ∃ i j, (i < j)%nat ∧ delimiter_line (strip text) i ∧ delimiter_line (strip text) j)
    as Hiff.
  { split; [apply split_three_two_delimiters|].
    intros Htwo. destruct (two_delimiters_split _ Htwo) as (i & j & _ & _ & _ & _ & ->).
    done. }
  split; [exact Hiff|]. intros Hnot. unfold _parse.
  destruct (startswith (strip text) DELIMITER) eqn:Hs; simpl; [|done].
  destruct (BOUNDARY_split (strip text) 2) as [|a [|b [|c [|d l]]]] eqn:E; try done.
  exfalso. apply Hnot. split; [done|]. by apply Hiff.
Qed.

Lemma three_segments_iff_witness :
  _parse (sample_host [] None) doc_unclosed = Ok ([], strip doc_unclosed).
Proof.
  apply (three_segments_iff_two_delimiter_lines (sample_host [] None) doc_unclosed).
  intros [_ Htwo].
  apply (three_segments_iff_two_delimiter_lines (sample_host [] None) doc_unclosed) in Htwo.
  vm_compute in Htwo. discriminate Htwo.
Defined.

(** X3: with three segments, the text is the first segment, the
    delimiter, the metadata block, the delimiter and the body; the first
    segment, which [_parse] discards, is empty exactly when the first line
    of the text is the delimiter. *)
Theorem first_segment_empty_iff t a fm content :
  BOUNDARY_split t 2 = [a; fm; content] →
  t = a ++ DELIMITER ++ fm ++ DELIMITER ++ content ∧
  (a = [] ↔ delimiter_line t 0).
Proof.
  intros Hsplit. split.
  - pose proof (split_from_join true 2 t) as Hjoin.
    fold (BOUNDARY_split t 2) in Hjoin. rewrite Hsplit in Hjoin. by simpl in Hjoin.
  - apply split_three_finds in Hsplit as (i & j' & Hi & _ & -> & _ & _).
    apply find_boundary_Some_1 in Hi as [Hi Hmin]. unfold delimiter_line. split.
    + intros [-> | ->]%take_nil_inv; [done|]. by rewrite boundary_at_from_nil in Hi.
    + intros H0. destruct i as [|i]; [done|]. rewrite Hmin in H0 by lia. done.
Qed.

Lemma first_segment_empty_witness :
  let t := strip doc_fields in
  t = [] ++ DELIMITER ++ fm_fields ++ DELIMITER
        ++ ([NEWLINE] ++ join_lines ["hello"; "---"; "more"]) ∧
  (([] : str) = [] ↔ delimiter_line t 0).
Proof.
  intros t.
  apply (first_segment_empty_iff t [] fm_fields
           ([NEWLINE] ++ join_lines ["hello"; "---"; "more"])).
  vm_compute. reflexivity.
Defined.

Lemma boundary_at_from_spec bol s k :
  boundary_at_from bol s k = true ↔
  line_start bol s k = true ∧
  s !! k = Some 45 ∧ s !! (k + 1)%nat = Some 45 ∧ s !! (k + 2)%nat = Some 45 ∧
  (s !! (k + 3)%nat = None ∨ s !! (k + 3)%nat = Some NEWLINE).
Proof.
  unfold boundary_at_from. rewrite andb_true_iff, boundary_here_spec.
  rewrite !lookup_drop. by rewrite Nat.add_0_r.
Qed.

(** X4: the metadata block handed to the YAML loader starts and ends with
    a newline and has no delimiter line of its own; the body is empty or
    starts with the newline that ends the second delimiter line. *)
Theorem metadata_block_shape t a fm content :
  BOUNDARY_split t 2 = [a; fm; content] →
  head fm = Some NEWLINE ∧ last fm = Some NEWLINE ∧
  (∀ k, ¬ delimiter_line fm k) ∧
  (content = [] ∨ head content = Some NEWLINE).
Proof.
  intros (i & j' & Hi & Hj & _ & -> & ->)%split_three_finds.
  apply find_boundary_Some_1 in Hi as [Hi _].
  apply find_boundary_Some_1 in Hj as [Hj Hmin].
  set (rest := drop (i + 3) t) in *.
  apply boundary_at_from_spec in Hi as (_ & _ & _ & _ & Hafter).
  apply boundary_at_from_spec in Hj as (Hline & Hd0 & Hd1 & Hd2 & Hafter').
  destruct j' as [|j0]; [done|]. simpl in Hline. apply bool_decide_eq_true in Hline.
  assert (rest !! 0%nat = Some NEWLINE) as Hhead.
  { unfold rest. rewrite lookup_drop, Nat.add_0_r.
    destruct Hafter as [Hnone|Hnl]; [|done].
    apply lookup_ge_None in Hnone.
    assert (rest !! j0 = None) as Habs.
    { unfold rest. rewrite lookup_drop. apply lookup_ge_None. lia. }
    congruence. }
  assert (S j0 + 3 ≤ length rest)%nat as Hlen.
  { apply lookup_lt_Some in Hd2. lia. }
  assert (∀ k, (k < S j0)%nat → take (S j0) rest !! k = rest !! k) as Htake.
  { intros k Hk. by apply lookup_take_lt. }
  split_and!.
  - rewrite head_lookup, Htake by lia. done.
  - rewrite last_lookup, length_take_le by lia. simpl. rewrite Htake by lia. done.
  - intros k Hk. unfold delimiter_line in Hk.
    apply boundary_at_from_spec in Hk as (Hls & Hk0 & Hk1 & Hk2 & Hk3).
    assert (k + 2 < S j0)%nat as Hin.
    { apply lookup_lt_Some in Hk2. rewrite length_take_le in Hk2 by lia. lia. }
    rewrite Htake in Hk0, Hk1, Hk2 by lia.
    destruct k as [|k].
    { rewrite Hhead in Hk0. done. }
    simpl in Hls. apply bool_decide_eq_true in Hls. rewrite Htake in Hls by lia.
    destruct (decide (S k + 3 = S j0)%nat) as [Heq|Hne].
    + replace (S k + 2)%nat with j0 in Hk2 by lia. rewrite Hline in Hk2. done.
    + assert (S k + 3 < S j0)%nat as Hlt.
      { destruct Hk3 as [Hnone|Hsome].
        - apply lookup_ge_None in Hnone. rewrite length_take_le in Hnone by lia. lia.
        - apply lookup_lt_Some in Hsome. rewrite length_take_le in Hsome by lia. lia. }
      rewrite Htake in Hk3 by lia.
      assert (boundary_at_from false rest (S k) = true) as Hb.
      { apply boundary_at_from_spec. split_and!; try done.
        simpl. by apply bool_decide_eq_true. }
      rewrite Hmin in Hb by lia. done.
  - replace (i + 3 + S j0 + 3)%nat with ((i + 3) + (S j0 + 3))%nat by lia.
    rewrite <- drop_drop. fold rest.
    destruct (drop (S j0 + 3) rest) as [|c l] eqn:Ed; [by left|right].
    assert (rest !! (S j0 + 3)%nat = Some c) as Hc.
    { rewrite <- (Nat.add_0_r (S j0 + 3)), <- lookup_drop, Ed. done. }
    destruct Hafter' as [Hnone|Hnl]; [congruence|]. simpl. congruence.
Qed.

Lemma metadata_block_shape_witness :
  head fm_fields = Some NEWLINE ∧ last fm_fields = Some NEWLINE ∧
  (∀ k, ¬ delimiter_line fm_fields k) ∧
  ([NEWLINE] ++ join_lines ["hello"; "---"; "more"] = []
   ∨ head ([NEWLINE] ++ join_lines ["hello"; "---"; "more"]) = Some NEWLINE).
Proof.
  apply (metadata_block_shape (strip doc_fields) [] fm_fields
           ([NEWLINE] ++ join_lines ["hello"; "---"; "more"])).
  vm_compute. reflexivity.
Defined.

(** ** White space around the document and around the body *)

Lemma lstrip_spaces ws s :
  Forall (λ c, is_space c = true) ws → lstrip (ws ++ s) = lstrip s.
Proof.
  induction 1 as [|c ws Hc _ IH]; simpl; [done|]. by rewrite Hc.
Qed.

Lemma lstrip_snoc l c :
  is_space c = false → lstrip (l ++ [c]) = lstrip l ++ [c].
Proof.
  intros Hc. induction l as [|a l IH]; simpl.
  - by rewrite Hc.
  - by destruct (is_space a).
Qed.

Lemma rstrip_cons c s :
  is_space c = false → rstrip (c :: s) = c :: rstrip s.
Proof.
  intros Hc. unfold rstrip. rewrite reverse_cons, lstrip_snoc by done.
  by rewrite reverse_snoc.
Qed.

Lemma lstrip_shape s : lstrip s = [] ∨ ∃ c u, lstrip s = c :: u ∧ is_space c = false.
Proof.
  destruct (lstrip s) as [|c u] eqn:E; [by left|right].
  exists c, u. split; [done|]. by eapply lstrip_head.
Qed.

Lemma lstrip_app x y :
  lstrip (x ++ y) = match lstrip x with [] => lstrip y | _ => lstrip x ++ y end.
Proof.
  induction x as [|a x IH]; simpl; [done|].
  destruct (is_space a); [done|]. done.
Qed.

Lemma rstrip_spaces s ws :
  Forall (λ c, is_space c = true) ws → rstrip (s ++ ws) = rstrip s.
Proof.
  intros Hws. unfold rstrip. rewrite reverse_app, lstrip_spaces; [done|].
  by apply Forall_reverse.
Qed.

(** A trimmed text does not start with white space. *)
Lemma strip_head s c : head (strip s) = Some c → is_space c = false.
Proof.
  unfold strip. destruct (lstrip_shape s) as [->|(c0 & u & -> & Hc0)]; [done|].
  rewrite rstrip_cons by done. simpl. by intros [= <-].
Qed.

Lemma strip_idemp s : strip (strip s) = strip s.
Proof.
  unfold strip. destruct (lstrip_shape s) as [->|(c0 & u & -> & Hc0)]; [done|].
  rewrite rstrip_cons by done. rewrite lstrip_id by done.
  rewrite <- rstrip_cons by done. unfold rstrip.
  rewrite reverse_involutive.
  destruct (lstrip_shape (reverse (c0 :: u))) as [->|(c1 & v & -> & Hc1)]; [done|].
  by rewrite lstrip_id.
Qed.

Lemma strip_padding ws s ws' :
  Forall (λ c, is_space c = true) ws → Forall (λ c, is_space c = true) ws' →
  strip (ws ++ s ++ ws') = strip s.
Proof.
  intros Hws Hws'. unfold strip. rewrite lstrip_spaces by done.
  rewrite lstrip_app. destruct (lstrip s) as [|c u] eqn:E.
  - rewrite <- (app_nil_r ws'), lstrip_spaces by done. done.
  - by rewrite rstrip_spaces.
Qed.

(** X5: white space around the document does not matter: [_parse] and
    [read] give for a text padded with white space what they give for
    the text, and for a text what they give for its trimmed form. *)
Theorem read_ignores_surrounding_space host ws text ws' :
  Forall (λ c, is_space c = true) ws → Forall (λ c, is_space c = true) ws' →
  _parse host (ws ++ text ++ ws') = _parse host text ∧
  read host (ws ++ text ++ ws') = read host text ∧
  read host (strip text) = read host text.
Proof.
  intros Hws Hws'.
  assert (∀ t1 t2, strip t1 = strip t2 → _parse host t1 = _parse host t2) as Hp.
  { intros t1 t2 Ht. unfold _parse. by rewrite Ht. }
  assert (∀ t1 t2, strip t1 = strip t2 → read host t1 = read host t2) as Hr.
  { intros t1 t2 Ht. unfold read. by rewrite (Hp t1 t2 Ht). }
  split_and!.
  - apply Hp. by apply strip_padding.
  - apply Hr. by apply strip_padding.
  - apply Hr. apply strip_idemp.
Qed.

Lemma read_ignores_surrounding_space_witness :
  read (sample_host [] None) ([32; 10] ++ doc_scalar ++ [9; 10; 10]) =
  read (sample_host [] None) doc_scalar.
Proof.
  apply (read_ignores_surrounding_space (sample_host [] None) [32; 10] doc_scalar [9; 10; 10]).
  - repeat constructor.
  - repeat constructor.
Defined.

(** X6: the body [read] returns is trimmed on both sides: it neither
    starts nor ends with white space. *)
Theorem read_body_trimmed host text body out :
  read host text = Ok (body, out) →
  (∀ c, head body = Some c → is_space c = false) ∧
  (∀ c, last body = Some c → is_space c = false) ∧
  strip body = body.
Proof.
  intros (meta & content & _ & -> & _)%read_Ok. split_and!.
  - apply strip_head.
  - apply strip_last.
  - apply strip_idemp.
Qed.

Lemma read_body_trimmed_witness :
  strip (paragraph ([NEWLINE] ++ codes "hello")) = paragraph ([NEWLINE] ++ codes "hello").
Proof.
  apply (read_body_trimmed (sample_host [] None) doc_scalar
           (paragraph ([NEWLINE] ++ codes "hello")) []).
  vm_compute. reflexivity.
Defined.

(** ** Failing and colliding fields *)

Lemma traverse_app_Err {A B} (f : A → result B) pre a post bs e :
  traverse f pre = Ok bs → f a = Err e → traverse f (pre ++ a :: post) = Err e.
Proof.
  revert bs. induction pre as [|x pre IH]; intros bs; simpl.
  - intros _ ->. done.
  - destruct (f x) as [b|e']; simpl; [|done].
    destruct (traverse f pre) as [bs'|e'] eqn:E; simpl; [|done].
    intros _ Ha. by rewrite (IH bs' eq_refl Ha).
Qed.

Lemma parse_metadata_first_failure host pre item post out_pre e :
  _parse_metadata host pre = Ok out_pre → field host item = Err e →
  _parse_metadata host (pre ++ item :: post) = Err e.
Proof.
  intros (fs & Hfs & _)%parse_metadata_Ok Hitem.
  unfold _parse_metadata. rewrite parse_metadata_loop_traverse.
  by rewrite (traverse_app_Err _ _ _ _ _ _ Hfs Hitem).
Qed.

(** X7: a key that is [None], a number, a bool or a date has no method
    [lower]: when the items before it are processed without exception,
    [_parse_metadata] raises [AttributeError], whatever follows.  (Keys
    that are [bytes], which have the method, are not among the keys of
    the model.) *)
Theorem non_str_key_raises host pre k v post out_pre :
  _parse_metadata host pre = Ok out_pre →
  (∀ s, k ≠ KStr s) →
  _parse_metadata host (pre ++ (k, v) :: post) = Err AttributeError.
Proof.
  intros Hpre Hk. eapply parse_metadata_first_failure; [done|].
  unfold field. simpl. destruct k as [|s|o]; try done. by destruct (Hk s).
Qed.

Lemma non_str_key_raises_witness :
  _parse_metadata (sample_host [] None)
    ([(KStr (codes "title"), VStr (codes "x"))]
       ++ (KOther 2024, VStr (codes "year")) :: [(KStr (codes "note"), VNone)])
  = Err AttributeError.
Proof.
  apply (non_str_key_raises (sample_host [] None)
           [(KStr (codes "title"), VStr (codes "x"))] (KOther 2024) (VStr (codes "year"))
           [(KStr (codes "note"), VNone)] [(codes "title", VStr (codes "x"))]).
  - vm_compute. reflexivity.
  - intros s. discriminate.
Defined.

(** X8: an exception of the hook is not caught: when the hook raises for
    a field (formatted or not) and the items before it were processed,
    [_parse_metadata] raises the same exception and gives no output. *)
Theorem hook_exception_propagates host pre k v post out_pre e :
  _parse_metadata host pre = Ok out_pre →
  (if bool_decide (lower host k ∈ FORMATTED_FIELDS host)
   then ∃ s, v = VStr s ∧
          process_metadata host (lower host k) (VStr (strip (convert host s))) = Err e
   else process_metadata host (lower host k) v = Err e) →
  _parse_metadata host (pre ++ (KStr k, v) :: post) = Err e ∧
  ∀ out, _parse_metadata host (pre ++ (KStr k, v) :: post) ≠ Ok out.
Proof.
  intros Hpre Hhook.
  assert (_parse_metadata host (pre ++ (KStr k, v) :: post) = Err e) as Herr.
  { eapply parse_metadata_first_failure; [done|].
    unfold field, field_value. simpl.
    destruct (bool_decide (lower host k ∈ FORMATTED_FIELDS host)).
    - destruct Hhook as (s & -> & Hs). simpl. by rewrite Hs.
    - by rewrite Hhook. }
  split; [done|]. intros out. by rewrite Herr.
Qed.

Lemma hook_exception_propagates_witness :
  let host :=
    {| convert := paragraph; lower := ascii_lower;
       process_metadata := λ name v,
         if decide (name = codes "date") then Err (HostError 1) else Ok v;
       compose := sample_compose; construct_builtin := λ _, Err ConstructorError;
       registered := []; FORMATTED_FIELDS := [codes "summary"];
       FRONTMARK_PARSE_LITERAL := None |} in
  _parse_metadata host
    ([(KStr (codes "title"), VStr (codes "x"))]
       ++ (KStr (codes "Date"), VStr (codes "soon")) :: [])
  = Err (HostError 1).
Proof.
  intros host.
  apply (hook_exception_propagates host [(KStr (codes "title"), VStr (codes "x"))]
           (codes "Date") (VStr (codes "soon")) []
           [(codes "title", VStr (codes "x"))] (HostError 1)).
  - vm_compute. reflexivity.
  - vm_compute. reflexivity.
Defined.

Lemma traverse_ext {A B} (f g : A → result B) l :
  (∀ a, f a = g a) → traverse f l = traverse g l.
Proof.
  intros Hfg. induction l as [|a l IH]; simpl; [done|]. by rewrite Hfg, IH.
Qed.

(** X9: the lower-cased key is looked up in FORMATTED_FIELDS as it is
    written: an entry of FORMATTED_FIELDS that is not in lower case never
    matches, so the output is the same without it. *)
Theorem uppercase_formatted_fields_inert host meta :
  (∀ s, lower host (lower host s) = lower host s) →
  _parse_metadata host meta =
  _parse_metadata
    (with_formatted_fields host
       (filter (λ f, lower host f = f) (FORMATTED_FIELDS host))) meta.
Proof.
  intros Hidem. unfold _parse_metadata. rewrite !parse_metadata_loop_traverse.
  rewrite (traverse_ext (field host)
    (field (with_formatted_fields host
       (filter (λ f, lower host f = f) (FORMATTED_FIELDS host))))); [done|].
  intros [k v]. unfold field. simpl. destruct k as [|s|o]; try done. simpl.
  unfold field_value. cbn [FORMATTED_FIELDS with_formatted_fields].
  rewrite (bool_decide_ext (lower host s ∈ FORMATTED_FIELDS host)
    (lower host s ∈ filter (λ f, lower host f = f) (FORMATTED_FIELDS host))); [done|].
  rewrite list_elem_of_filter. split; [|by intros [_ ?]]. intros Hin. by split.
Qed.

Lemma uppercase_formatted_fields_inert_witness :
  let host := with_formatted_fields (sample_host [] None)
                [codes "Summary"; codes "note"] in
  _parse_metadata host [(KStr (codes "Summary"), VStr (codes "s"));
                        (KStr (codes "Note"), VStr (codes "n"))]
  = Ok [(codes "summary", VStr (codes "s"));
        (codes "note", VStr (codes "<p>n</p>"))].
Proof.
  intros host.
  rewrite (uppercase_formatted_fields_inert host); [|apply ascii_lower_idemp].
  vm_compute. reflexivity.
Defined.

Section odict_distinct.
Context {K V : Type} `{EqDecision K}.
Implicit Types (k : K) (v : V) (d ps : list (K * V)).

Lemma od_set_fresh k v d : k ∉ od_keys d → od_set k v d = d ++ [(k, v)].
Proof.
  unfold od_keys. induction d as [|[k0 v0] d IH]; simpl; [done|].
  intros [Hne Hnin]%not_elem_of_cons. rewrite decide_False by done.
  by rewrite IH.
Qed.

Lemma od_fold_distinct ps d :
  NoDup (od_keys d ++ ps.*1) →
  fold_left (λ d p, od_set p.1 p.2 d) ps d = d ++ ps.
Proof.
  revert d. induction ps as [|[k v] ps IH]; intros d; simpl.
  - intros _. by rewrite app_nil_r.
  - intros Hnd. assert (k ∉ od_keys d) as Hk.
    { apply NoDup_app in Hnd as (_ & Hdisj & _). intros Hin.
      apply (Hdisj k Hin). apply elem_of_cons. by left. }
    rewrite od_set_fresh by done. rewrite IH.
    + by rewrite <- app_assoc.
    + unfold od_keys in *. rewrite fmap_app. simpl. by rewrite <- app_assoc.
Qed.

(** Pairs with distinct keys make the ordered dict they spell out. *)
Lemma od_of_pairs_distinct ps : NoDup ps.*1 → od_of_pairs ps = ps.
Proof. intros Hnd. unfold od_of_pairs. by rewrite od_fold_distinct. Qed.

Lemma length_first_seen (l : list K) : (length (first_seen l) ≤ length l)%nat.
Proof.
  induction l as [|k l IH]; simpl; [done|].
  pose proof (length_filter (λ k', k' ≠ k) (first_seen l)). lia.
Qed.
End odict_distinct.

(** X10: the output never has more entries than the mapping it is made
    from; when the lower-cased names are pairwise distinct it has exactly
    one entry per item, at the position of the item, under the
    lower-cased key. *)
Theorem distinct_names_one_entry_each host meta out :
  _parse_metadata host meta = Ok out →
  (length out ≤ length meta)%nat ∧
  (NoDup (lowered_keys host meta) →
   length out = length meta ∧
   ∀ i k v, meta !! i = Some (k, v) →
     ∃ s w, k = KStr s ∧ out !! i = Some (lower host s, w) ∧
            field_value host (lower host s) v = Ok w).
Proof.
  intros (fs & Hfs & ->)%parse_metadata_Ok.
  pose proof (lowered_keys_fields _ _ _ Hfs) as Hnames.
  pose proof (traverse_length _ _ _ Hfs) as Hlen.
  split.
  - change (length (od_of_pairs fs)) with (length (od_of_pairs fs)).
    rewrite <- (length_fmap fst (od_of_pairs fs)).
    fold (od_keys (od_of_pairs fs)). rewrite od_keys_of_pairs.
    pose proof (length_first_seen fs.*1) as Hle. rewrite length_fmap in Hle. lia.
  - rewrite Hnames. intros Hnd. rewrite od_of_pairs_distinct by done.
    split; [done|]. intros i k v Hi.
    destruct (traverse_lookup _ _ _ _ _ Hfs Hi) as ([name w] & Hf & Hfi).
    apply field_Ok in Hf as (s & -> & -> & Hw). by exists s, w.
Qed.

Lemma distinct_names_one_entry_each_witness :
  let host := sample_host [] None in
  let meta := [(KStr (codes "Title"), VStr (codes "x"));
               (KStr (codes "Note"), VStr (codes "n"))] in
  ∃ s w, KStr (codes "Note") = KStr s ∧
    [(codes "title", VStr (codes "x")); (codes "note", VStr (codes "n"))] !! 1%nat
      = Some (lower host s, w) ∧
    field_value host (lower host s) (VStr (codes "n")) = Ok w.
Proof.
  intros host meta.
  destruct (distinct_names_one_entry_each host meta
    [(codes "title", VStr (codes "x")); (codes "note", VStr (codes "n"))])
    as [_ Hdistinct].
  - vm_compute. reflexivity.
  - destruct Hdistinct as [_ Hpos].
    + vm_compute. apply NoDup_cons. split.
      * intros [Heq|Hin]%elem_of_cons; [discriminate Heq|by apply elem_of_nil in Hin].
      * apply NoDup_cons. split; [apply not_elem_of_nil|constructor].
    + apply (Hpos 1%nat (KStr (codes "Note")) (VStr (codes "n"))). reflexivity.
Defined.

(** ** The loader: untouched tags, nesting, keys *)

(** X12: the snapshot holds a handler for [!md], for the string tag when
    FRONTMARK_PARSE_LITERAL is on, and for the contributed tags, and for
    no other tag: a node with any other tag is built by the constructor
    inherited from [yaml.Loader]. *)
Theorem unregistered_tags_inherited host (tag : str) :
  (loader_class host !! tag = None ↔
   tag ≠ MD_TAG ∧
   (tag = STR_TAG → default true (FRONTMARK_PARSE_LITERAL host) = false) ∧
   tag ∉ external_tags host) ∧
  (loader_class host !! tag = None →
   tag ≠ STR_TAG → tag ≠ MAP_TAG → tag ≠ SEQ_TAG →
   ∀ n, node_tag n = tag →
     construct_object host (loader_class host) n = construct_builtin host n).
Proof.
  split.
  - rewrite loader_class_lookup, last_value_None. unfold registrations, external_tags.
    rewrite fmap_app, not_elem_of_app. unfold builtin_registrations.
    destruct (default true (FRONTMARK_PARSE_LITERAL host)); simpl.
    + rewrite !not_elem_of_cons. split.
      * intros [(Hmd & Hstr & _) Hext]. split_and!; [done| |done]. by intros ->.
      * intros (Hmd & Hstr & Hext). split_and!; try done.
        -- intros ->. by specialize (Hstr eq_refl).
        -- apply not_elem_of_nil.
    + rewrite !not_elem_of_cons. split.
      * intros [(Hmd & _) Hext]. by split_and!.
      * intros (Hmd & _ & Hext). split_and!; try done. apply not_elem_of_nil.
  - intros Hnone Hstr Hmap Hseq n <-. destruct n; simpl in *; rewrite Hnone;
      by rewrite !decide_False by done.
Qed.

Lemma unregistered_tags_inherited_witness :
  let host := sample_host [RPair (codes "!up") shout] (Some false) in
  loader_class host !! STR_TAG = None ∧
  construct_object host (loader_class host)
    (ScalarNode (codes "tag:yaml.org,2002:int") (codes "3") None)
  = Err ConstructorError.
Proof.
  intros host.
  assert (∀ t : str, t ≠ codes "!up" → t ∉ external_tags host) as Hext.
  { intros t Ht [Heq|Hin]%elem_of_cons; [done|by apply elem_of_nil in Hin]. }
  split.
  - apply (unregistered_tags_inherited host STR_TAG). split_and!; [done|done|].
    by apply Hext.
  - destruct (unregistered_tags_inherited host (codes "tag:yaml.org,2002:int"))
      as [Hiff Hcall].
    rewrite Hcall; [reflexivity| |done|done|done|done].
    apply Hiff. split_and!; [done|done|by apply Hext].
Defined.

(** X13: rendering reaches the scalars inside a sequence.  When no
    handler contributed through [frontmark_yaml_register] is registered
    for the sequence tag, for [!md] or for the string tag, a sequence of
    scalars tagged [!md] or with the string tag is built into the list of
    their texts, each rendered once or left as it is by the rule of its
    own tag and style. *)
Theorem sequence_items_rendered host (items : list (str * str * option str)) :
  SEQ_TAG ∉ external_tags host →
  MD_TAG ∉ external_tags host →
  STR_TAG ∉ external_tags host →
  Forall (λ it, it.1.1 = MD_TAG ∨ it.1.1 = STR_TAG) items →
  construct_object host (loader_class host)
    (SequenceNode SEQ_TAG ((λ it, ScalarNode it.1.1 it.1.2 it.2) <$> items)) =
  Ok (VList ((λ it, VStr (passes host (rendered_by_loader host it.1.1 it.2) it.1.2))
             <$> items)).
Proof.
  intros Hseq Hmd Hstr Hall. cbn [construct_object node_tag].
  rewrite tag_not_builtin by done.
  rewrite !decide_False by done. rewrite decide_True by done.
  unfold construct_sequence.
  assert (traverse (construct_object host (loader_class host))
            ((λ it, ScalarNode it.1.1 it.1.2 it.2) <$> items) =
          Ok ((λ it, VStr (passes host (rendered_by_loader host it.1.1 it.2) it.1.2))
              <$> items)) as ->; [|done].
  induction Hall as [|[[tag raw] style] items Htag _ IH]; [done|].
  rewrite !fmap_cons. cbn [traverse fst snd].
  rewrite construct_scalar_passes by done. cbn [mbind result_bind].
  by rewrite IH.
Qed.

Lemma sequence_items_rendered_witness :
  let host := sample_host [] None in
  construct_object host (loader_class host)
    (SequenceNode SEQ_TAG
       [ScalarNode MD_TAG (codes "a") None; ScalarNode STR_TAG (codes "b") None]) =
  Ok (VList [VStr (paragraph (codes "a")); VStr (codes "b")]).
Proof.
  intros host.
  assert (∀ t : str, t ∉ external_tags host) as Hext by (intros t; apply not_elem_of_nil).
  apply (sequence_items_rendered host
           [(MD_TAG, codes "a", None); (STR_TAG, codes "b", None)]
           (Hext _) (Hext _) (Hext _)).
  apply Forall_cons. split; [by left|].
  apply Forall_cons. split; [by right|]. apply Forall_nil. done.
Defined.

Lemma hashed_Err p e : hashed p = Err e → e = TypeError.
Proof.
  unfold hashed. destruct p as [k v]. simpl.
  destruct k; simpl; try done; by intros [= <-].
Qed.

Lemma hashed_unhashable k v :
  (∃ l, k = VList l) ∨ (∃ d, k = VDict d) → hashed (k, v) = Err TypeError.
Proof. by intros [[l ->]|[d ->]]. Qed.

Lemma traverse_hashed_Err ps p :
  p ∈ ps → hashed p = Err TypeError → traverse hashed ps = Err TypeError.
Proof.
  intros Hin Hp. induction ps as [|q ps IH]; [by apply elem_of_nil in Hin|].
  simpl. destruct (hashed q) as [h|e] eqn:Eq; simpl.
  - apply elem_of_cons in Hin as [->|Hin]; [congruence|].
    by rewrite IH.
  - by rewrite (hashed_Err _ _ Eq).
Qed.

(** X14: [construct_mapping] hashes the keys it is given.  When the pairs
    of a mapping node are constructed and one of the keys is a list or a
    dict, it raises [TypeError]; when every key can be hashed, it returns
    a mapping. *)
Theorem unhashable_key_raises construct n ps :
  construct_pairs construct n = Ok ps →
  ((∃ k v, (k, v) ∈ ps ∧ ((∃ l, k = VList l) ∨ (∃ d, k = VDict d))) →
   construct_mapping construct n = Err TypeError) ∧
  ((∀ k v, (k, v) ∈ ps → ∃ h, hashable k = Ok h) →
   ∃ d, construct_mapping construct n = Ok d).
Proof.
  intros Hps. unfold construct_mapping. rewrite Hps. cbn [mbind result_bind].
  rewrite OrderedDict_traverse. split.
  - intros (k & v & Hin & Hk%(hashed_unhashable k v)).
    by rewrite (traverse_hashed_Err _ _ Hin Hk).
  - intros Hall. destruct (traverse_returns hashed ps) as [hs ->]; [|simpl; eauto].
    intros [k v] Hin. destruct (Hall k v Hin) as [h Hh].
    exists (h, v). unfold hashed. simpl. by rewrite Hh.
Qed.

Lemma unhashable_key_raises_witness :
  let construct := construct_object (sample_host [] None)
                     (loader_class (sample_host [] None)) in
  construct_mapping construct
    (MappingNode MAP_TAG [(SequenceNode SEQ_TAG [plain "a"], plain "x")])
  = Err TypeError.
Proof.
  intros construct.
  apply (unhashable_key_raises construct
           (MappingNode MAP_TAG [(SequenceNode SEQ_TAG [plain "a"], plain "x")])
           [(VList [VStr (codes "a")], VStr (codes "x"))]).
  - vm_compute. reflexivity.
  - exists (VList [VStr (codes "a")]), (VStr (codes "x")).
    split; [apply elem_of_cons; by left|left; eauto].
Defined.

(** X15: the mapping [construct_mapping] returns has each key once, in
    the order in which the keys first appear in the node, with the value
    of the last pair that has the key; it has no more entries than the
    node has pairs. *)
Theorem construct_mapping_duplicate_keys construct n d :
  construct_mapping construct n = Ok d →
  ∃ ps hs,
    construct_pairs construct n = Ok ps ∧ traverse hashed ps = Ok hs ∧
    od_keys d = first_seen hs.*1 ∧ NoDup (od_keys d) ∧
    (∀ k, od_get k d = last_value k hs) ∧
    (length d ≤ length ps)%nat.
Proof.
  unfold construct_mapping.
  destruct (construct_pairs construct n) as [ps|e] eqn:Hps; simpl; [|done].
  intros Hd. destruct (construct_mapping_order _ _ Hd) as (hs & Hhs & Hkeys & Hnd & Hget).
  exists ps, hs. split_and!; try done.
  rewrite <- (length_fmap fst d). fold (od_keys d). rewrite Hkeys.
  pose proof (length_first_seen hs.*1) as Hle. rewrite length_fmap in Hle.
  rewrite (traverse_length _ _ _ Hhs) in Hle. done.
Qed.

Lemma construct_mapping_duplicate_keys_witness :
  let construct := construct_object (sample_host [] None)
                     (loader_class (sample_host [] None)) in
  let d := [(KStr (codes "a"), VStr (codes "3")); (KStr (codes "b"), VStr (codes "2"))] in
  od_get (KStr (codes "a")) d = Some (VStr (codes "3")) ∧ NoDup (od_keys d).
Proof.
  intros construct d.
  destruct (construct_mapping_duplicate_keys construct
    (MappingNode MAP_TAG [(plain "a", plain "1"); (plain "b", plain "2");
                          (plain "a", plain "3")]) d)
    as (ps & hs & Hps & Hhs & _ & Hnd & Hget & _).
  - vm_compute. reflexivity.
  - split; [|exact Hnd]. reflexivity.
Defined.

(** ** The constructor: failures, what it leaves alone, running it twice *)

Lemma add_missing_elem x xs y : y ∈ add_missing x xs ↔ y = x ∨ y ∈ xs.
Proof.
  unfold add_missing. case_bool_decide as Hx.
  - split; [by right|]. by intros [->|?].
  - rewrite elem_of_app, list_elem_of_singleton. tauto.
Qed.

Lemma add_missing_NoDup x xs : NoDup xs → NoDup (add_missing x xs).
Proof.
  intros Hnd. unfold add_missing. case_bool_decide as Hx; [done|].
  apply NoDup_app. split_and!; [done| |apply NoDup_singleton].
  intros y Hy ->%list_elem_of_singleton. done.
Qed.

Lemma add_missing_prefix x xs : xs `prefix_of` add_missing x xs.
Proof.
  unfold add_missing. case_bool_decide; [done|]. by apply prefix_app_r.
Qed.

Lemma fold_add_missing_elem names xs y :
  y ∈ fold_left (λ acc x, add_missing x acc) names xs ↔ y ∈ names ∨ y ∈ xs.
Proof.
  revert xs. induction names as [|x names IH]; intros xs; simpl.
  - split; [by right|]. intros [Hin|?]; [by apply elem_of_nil in Hin|done].
  - rewrite IH, add_missing_elem, elem_of_cons. tauto.
Qed.

Lemma fold_add_missing_NoDup names xs :
  NoDup xs → NoDup (fold_left (λ acc x, add_missing x acc) names xs).
Proof.
  revert xs. induction names as [|x names IH]; intros xs Hnd; simpl; [done|].
  by apply IH, add_missing_NoDup.
Qed.

Lemma fold_add_missing_prefix names xs :
  xs `prefix_of` fold_left (λ acc x, add_missing x acc) names xs.
Proof.
  revert xs. induction names as [|x names IH]; intros xs; simpl; [done|].
  etrans; [apply (add_missing_prefix x)|apply IH].
Qed.

Lemma fold_add_missing_id names xs :
  (∀ x, x ∈ names → x ∈ xs) →
  fold_left (λ acc x, add_missing x acc) names xs = xs.
Proof.
  induction names as [|x names IH]; intros Hall; simpl; [done|].
  unfold add_missing at 2. rewrite bool_decide_eq_true_2.
  - apply IH. intros y Hy. apply Hall, elem_of_cons. by right.
  - apply Hall, elem_of_cons. by left.
Qed.

(** Normalising a normalised list changes nothing. *)
Lemma normalize_extensions_idemp names xs :
  normalize_extensions names (normalize_extensions names xs)
  = normalize_extensions names xs.
Proof.
  set (N := normalize_extensions names xs).
  assert (∀ y, y ∈ N ↔ y = META ∨ y ∈ names ∨ y ∈ xs) as HN.
  { intros y. unfold N, normalize_extensions.
    by rewrite add_missing_elem, fold_add_missing_elem. }
  unfold normalize_extensions at 1. rewrite fold_add_missing_id.
  - unfold add_missing. rewrite bool_decide_eq_true_2; [done|]. apply HN. by left.
  - intros x Hx. apply HN. right. by left.
Qed.

(** The run of the constructor on accepted settings, with what it wrote
    and what it left alone. *)
Lemma init_result (σ : store) r :
  settings_ok σ r →
  ∃ σ' top m md md' c cfgs e,
    __init__ r σ = (Ok {| settings := r |}, σ') ∧
    σ !! r = Some (ODict top) ∧ σ' !! r = Some (ODict top) ∧
    od_get MARKDOWN top = Some m ∧ m ≠ r ∧
    σ !! m = Some (ODict md) ∧ σ' !! m = Some (ODict md') ∧
    od_get EXTENSION_CONFIGS md' = Some c ∧ c ≠ m ∧
    σ' !! c = Some (ODict cfgs) ∧ od_keys cfgs = config_names σ r ∧
    od_get EXTENSIONS md' = Some e ∧
    σ' !! e = Some (OList (normalize_extensions (config_names σ r)
                                                (extension_list σ r))) ∧
    (∀ k, k ≠ EXTENSION_CONFIGS → k ≠ EXTENSIONS → od_get k md' = od_get k md) ∧
    (∀ x, is_Some (σ !! x) → x ≠ m → x ≠ e → σ' !! x = σ !! x).
Proof.
  intros (top & m & md & Hr & Htop & Hmr & Hm & Hcfg & Hext).
  assert (EXTENSIONS ≠ EXTENSION_CONFIGS) as Hkeys by done.
  destruct (setdefault_step σ m md EXTENSION_CONFIGS (ODict []) Hm)
    as (ρ1 & md1 & c & Hset1 & Hm1 & Hc1 & Hother1 & Hframe1 & Hcase1).
  destruct (setdefault_step ρ1 m md1 EXTENSIONS (OList []) Hm1)
    as (ρ2 & md2 & e & Hset2 & Hm2 & He2 & Hother2 & Hframe2 & Hcase2).
  assert (od_get EXTENSION_CONFIGS md2 = Some c) as Hc2.
  { by rewrite Hother2 by done. }
  assert (od_get EXTENSIONS md1 = od_get EXTENSIONS md) as Hext1 by (by apply Hother1).
  assert (∃ cfgs, ρ1 !! c = Some (ODict cfgs) ∧ c ≠ m ∧
                  od_keys cfgs = config_names σ r) as (cfgs & Hcfgs1 & Hcm & Hnames).
  { unfold config_names. rewrite (markdown_entry_lookup _ _ _ _ _ _ Hr Htop Hm).
    destruct Hcase1 as [[Hc ->]|(Hc & Hfresh & Hne & Hnew)].
    - destruct (Hcfg c Hc) as [Hne [cfgs Hcfgs]]. exists cfgs.
      rewrite Hc. simpl. by rewrite Hcfgs.
    - exists []. by rewrite Hc. }
  assert (ρ2 !! c = Some (ODict cfgs)) as Hcfgs2.
  { rewrite Hframe2; [done|done|by rewrite Hcfgs1]. }
  assert (∃ xs, ρ2 !! e = Some (OList xs) ∧ xs = extension_list σ r) as (xs & Hxs2 & Hxs).
  { unfold extension_list. rewrite (markdown_entry_lookup _ _ _ _ _ _ Hr Htop Hm).
    destruct Hcase2 as [[He ->]|(He & Hfresh & Hne & Hnew)].
    - rewrite Hext1 in He. destruct (Hext e He) as [xs Hxs]. exists xs.
      assert (ρ1 !! e = Some (OList xs)) as Hxs1.
      { rewrite Hframe1; [done| |by rewrite Hxs]. intros ->. congruence. }
      rewrite He. simpl. by rewrite Hxs.
    - exists []. rewrite Hext1 in He. by rewrite He. }
  assert (∀ x, is_Some (σ !! x) → x ≠ m → ρ2 !! x = σ !! x) as Hframe.
  { intros x Hx Hxm. rewrite Hframe2, Hframe1; [done|done|done|done|].
    by rewrite Hframe1. }
  assert (e ≠ r) as Her.
  { intros ->. rewrite Hframe in Hxs2; [congruence|by rewrite Hr|done]. }
  assert (e ≠ m) as Hem by (intros ->; congruence).
  assert (e ≠ c) as Hec by (intros ->; congruence).
  exists (<[e := OList (normalize_extensions (od_keys cfgs) xs)]> ρ2),
    top, m, md, md2, c, cfgs, e.
  split_and!; try done.
  - unfold __init__. cbn [settings].
    rewrite (M_bind_Ok _ _ _ _ _ (getitem_Ok _ _ _ _ _ Hr Htop)).
    rewrite (M_bind_Ok _ _ _ _ _ Hset1).
    rewrite (M_bind_Ok _ _ _ _ _ Hset2).
    by apply (init_tail ρ2 r m md2 c cfgs e xs).
  - rewrite lookup_insert_ne by done. rewrite Hframe; [done|by rewrite Hr|done].
  - by rewrite lookup_insert_ne.
  - by rewrite lookup_insert_ne.
  - rewrite lookup_insert_eq. by rewrite Hnames, Hxs.
  - intros k Hk1 Hk2. rewrite Hother2 by done. by apply Hother1.
  - intros x Hx Hxm Hxe. rewrite lookup_insert_ne by done. by apply Hframe.
Qed.

(** X16: settings without a MARKDOWN entry: the constructor raises
    [KeyError] and has written nothing. *)
Theorem init_without_markdown_raises (σ : store) r top :
  σ !! r = Some (ODict top) → od_get MARKDOWN top = None →
  __init__ r σ = (Err KeyError, σ).
Proof.
  intros Hr Htop. unfold __init__, getitem, mbind, M_bind. cbn [settings].
  by rewrite Hr, Htop.
Qed.

Lemma init_without_markdown_witness :
  __init__ 0%nat {[ 0%nat := ODict [(codes "THEME", 1%nat)]; 1%nat := OOther 0 ]}
  = (Err KeyError, {[ 0%nat := ODict [(codes "THEME", 1%nat)]; 1%nat := OOther 0 ]}).
Proof.
  apply (init_without_markdown_raises _ 0%nat [(codes "THEME", 1%nat)]).
  - vm_compute. reflexivity.
  - vm_compute. reflexivity.
Defined.

(** X17: the constructor is not all-or-nothing: when [extension_configs]
    is not a dict (it has no [keys]) the constructor raises
    [AttributeError], after [setdefault] has already given the settings
    of the caller a list of extensions they did not have. *)
Theorem init_bad_configs_raises_after_writing (σ : store) r top m md c o :
  σ !! r = Some (ODict top) → od_get MARKDOWN top = Some m → m ≠ r →
  σ !! m = Some (ODict md) →
  od_get EXTENSION_CONFIGS md = Some c →
  σ !! c = Some o → (∀ cfgs, o ≠ ODict cfgs) →
  od_get EXTENSIONS md = None →
  ∃ σ', __init__ r σ = (Err AttributeError, σ') ∧
    markdown_entry σ r EXTENSIONS = None ∧
    markdown_entry σ' r EXTENSIONS = Some (OList []).
Proof.
  intros Hr Htop Hmr Hm Hc Ho Hnd He.
  assert (c ≠ m) as Hcm by (intros ->; rewrite Ho in Hm; injection Hm as ->; by destruct (Hnd md)).
  set (e := fresh (dom σ)).
  assert (σ !! e = None) as Hfresh by apply fresh_not_in.
  assert (e ≠ m) as Hem by (intros Heq; rewrite Heq in Hfresh; congruence).
  assert (e ≠ r) as Her by (intros Heq; rewrite Heq in Hfresh; congruence).
  assert (e ≠ c) as Hec by (intros Heq; rewrite Heq in Hfresh; congruence).
  set (md' := od_set EXTENSIONS e md).
  set (σ' := <[m := ODict md']> (<[e := OList []]> σ)).
  assert (σ' !! m = Some (ODict md')) as Hm' by (unfold σ'; by rewrite lookup_insert_eq).
  assert (od_get EXTENSION_CONFIGS md' = Some c) as Hc'.
  { unfold md'. rewrite od_get_set. by rewrite decide_False. }
  assert (σ' !! c = Some o) as Ho'.
  { unfold σ'. by rewrite !lookup_insert_ne. }
  exists σ'. split_and!.
  - unfold __init__. cbn [settings].
    rewrite (M_bind_Ok _ _ _ _ _ (getitem_Ok _ _ _ _ _ Hr Htop)).
    rewrite (M_bind_Ok _ _ _ _ _ (setdefault_present _ _ _ (ODict []) _ _ Hm Hc)).
    rewrite (M_bind_Ok _ _ _ _ _ (setdefault_absent _ _ _ (OList []) _ Hm He)).
    fold e md' σ'.
    rewrite (M_bind_Ok _ _ _ _ _ (getitem_Ok _ _ _ _ _ Hm' Hc')).
    unfold mbind, M_bind, keys. rewrite Ho'.
    destruct o as [l|cfgs|x]; try done. by destruct (Hnd cfgs).
  - rewrite (markdown_entry_lookup _ _ _ _ _ _ Hr Htop Hm), He. done.
  - assert (σ' !! r = Some (ODict top)) as Hr'.
    { unfold σ'. by rewrite !lookup_insert_ne. }
    rewrite (markdown_entry_lookup _ _ _ _ _ _ Hr' Htop Hm').
    unfold md'. rewrite od_get_set, decide_True by done. simpl.
    unfold σ'. rewrite lookup_insert_ne by done. by rewrite lookup_insert_eq.
Qed.

Lemma init_bad_configs_witness :
  let σ : store :=
    {[ 0%nat := ODict [(MARKDOWN, 1%nat)];
       1%nat := ODict [(EXTENSION_CONFIGS, 2%nat)];
       2%nat := OList [codes "markdown.extensions.toc"] ]} in
  ∃ σ', __init__ 0%nat σ = (Err AttributeError, σ') ∧
    markdown_entry σ 0%nat EXTENSIONS = None ∧
    markdown_entry σ' 0%nat EXTENSIONS = Some (OList []).
Proof.
  intros σ.
  apply (init_bad_configs_raises_after_writing σ 0%nat [(MARKDOWN, 1%nat)] 1%nat
           [(EXTENSION_CONFIGS, 2%nat)] 2%nat (OList [codes "markdown.extensions.toc"])).
  - vm_compute. reflexivity.
  - vm_compute. reflexivity.
  - discriminate.
  - vm_compute. reflexivity.
  - vm_compute. reflexivity.
  - vm_compute. reflexivity.
  - intros cfgs. discriminate.
  - vm_compute. reflexivity.
Defined.

Lemma init_result_entries (σ σ' : store) r top m md' c cfgs e l :
  σ' !! r = Some (ODict top) → od_get MARKDOWN top = Some m →
  σ' !! m = Some (ODict md') →
  od_get EXTENSION_CONFIGS md' = Some c → σ' !! c = Some (ODict cfgs) →
  od_get EXTENSIONS md' = Some e → σ' !! e = Some (OList l) →
  markdown_entry σ' r EXTENSION_CONFIGS = Some (ODict cfgs) ∧
  markdown_entry σ' r EXTENSIONS = Some (OList l) ∧
  config_names σ' r = od_keys cfgs ∧ extension_list σ' r = l.
Proof.
  intros Hr Htop Hm Hc Hcfgs He Hl.
  unfold config_names, extension_list.
  rewrite !(markdown_entry_lookup _ _ _ _ _ _ Hr Htop Hm), Hc, He. simpl.
  by rewrite Hcfgs, Hl.
Qed.

(** X18: constructing a second reader on the same settings changes
    nothing: after the first construction the settings are normalised,
    and the constructor leaves normalised settings as they are. *)
Theorem init_twice (σ : store) r :
  settings_ok σ r →
  ∃ σ', __init__ r σ = (Ok {| settings := r |}, σ') ∧
        settings_ok σ' r ∧ normalized σ' r ∧
        __init__ r σ' = (Ok {| settings := r |}, σ').
Proof.
  intros Hok.
  destruct (init_result σ r Hok)
    as (σ' & top & m & md & md' & c & cfgs & e & Hrun & Hr & Hr' & Htop & Hmr & Hm & Hm'
        & Hc & Hcm & Hcfgs & Hnames & He & Hl & _ & _).
  destruct (init_result_entries σ σ' r top m md' c cfgs e _ Hr' Htop Hm' Hc Hcfgs He Hl)
    as (Hec & Hee & Hcn & Hel).
  assert (∀ c0, od_get EXTENSION_CONFIGS md' = Some c0 →
                c0 ≠ m ∧ ∃ cfgs0, σ' !! c0 = Some (ODict cfgs0)) as Hcfg'.
  { intros c0 Hc0. rewrite Hc in Hc0. injection Hc0 as <-. eauto. }
  assert (∀ e0, od_get EXTENSIONS md' = Some e0 →
                ∃ xs, σ' !! e0 = Some (OList xs)) as Hext'.
  { intros e0 He0. rewrite He in He0. injection He0 as <-. eauto. }
  exists σ'. split_and!.
  - exact Hrun.
  - exists top, m, md'. by split_and!.
  - unfold normalized. rewrite Hec, Hee, Hcn, Hel, Hnames. split_and!; [done|done|].
    apply normalize_extensions_idemp.
  - destruct (init_run σ' r top m md' Hr' Htop Hmr Hm' Hcfg' Hext')
      as (ρ & md2 & c2 & cfgs2 & e2 & xs2 & Hrun2 & _ & _ & _ & Hcfgs2 & _ & Hxs2
          & Hn2 & Hx2 & Hcase).
    rewrite Hrun2. f_equal.
    destruct Hcase as [(Hc2 & He2 & ->)|[[Hn|Hn] _]];
      [|rewrite Hc in Hn; discriminate Hn|rewrite He in Hn; discriminate Hn].
    rewrite Hc in Hc2. injection Hc2 as <-. rewrite He in He2. injection He2 as <-.
    rewrite Hn2, Hx2, Hcn, Hel, Hnames, normalize_extensions_idemp.
    by apply insert_id.
Qed.

Lemma init_twice_witness :
  ∃ σ', __init__ 0%nat sample_store = (Ok {| settings := 0%nat |}, σ') ∧
        __init__ 0%nat σ' = (Ok {| settings := 0%nat |}, σ').
Proof.
  destruct (init_twice sample_store 0%nat) as (σ' & Hrun & _ & _ & Hagain).
  - exists [(MARKDOWN, 1%nat)], 1%nat,
      [(EXTENSION_CONFIGS, 2%nat); (codes "output_format", 3%nat)].
    split_and!.
    + vm_compute. reflexivity.
    + vm_compute. reflexivity.
    + discriminate.
    + vm_compute. reflexivity.
    + intros c Hc. vm_compute in Hc. injection Hc as <-. split; [discriminate|].
      exists [(codes "markdown.extensions.codehilite", 4%nat)].
      vm_compute. reflexivity.
    + intros e He. vm_compute in He. discriminate He.
  - by exists σ'.
Defined.

(** X19: the constructor writes to the MARKDOWN dict and to its list of
    extensions only: every other object that existed is as it was (among
    them the configuration of each extension), and every other key
    of MARKDOWN refers to the object it referred to. *)
Theorem init_writes_only_extensions (σ : store) r :
  settings_ok σ r →
  ∃ σ' top m md md' e,
    __init__ r σ = (Ok {| settings := r |}, σ') ∧
    σ !! r = Some (ODict top) ∧ od_get MARKDOWN top = Some m ∧
    σ !! m = Some (ODict md) ∧ σ' !! m = Some (ODict md') ∧
    od_get EXTENSIONS md' = Some e ∧
    (∀ x, is_Some (σ !! x) → x ≠ m → x ≠ e → σ' !! x = σ !! x) ∧
    (∀ k, k ≠ EXTENSION_CONFIGS → k ≠ EXTENSIONS → od_get k md' = od_get k md) ∧
    config_names σ' r = config_names σ r.
Proof.
  intros Hok.
  destruct (init_result σ r Hok)
    as (σ' & top & m & md & md' & c & cfgs & e & Hrun & Hr & Hr' & Htop & Hmr & Hm & Hm'
        & Hc & Hcm & Hcfgs & Hnames & He & Hl & Hkeys & Hframe).
  destruct (init_result_entries σ σ' r top m md' c cfgs e _ Hr' Htop Hm' Hc Hcfgs He Hl)
    as (_ & _ & Hcn & _).
  exists σ', top, m, md, md', e. split_and!; try done. by rewrite Hcn.
Qed.

Lemma init_writes_only_extensions_witness :
  ∃ σ' top m md md' e,
    __init__ 0%nat sample_store = (Ok {| settings := 0%nat |}, σ') ∧
    sample_store !! 0%nat = Some (ODict top) ∧ od_get MARKDOWN top = Some m ∧
    sample_store !! m = Some (ODict md) ∧ σ' !! m = Some (ODict md') ∧
    od_get EXTENSIONS md' = Some e ∧
    (∀ x, is_Some (sample_store !! x) → x ≠ m → x ≠ e → σ' !! x = sample_store !! x) ∧
    (∀ k, k ≠ EXTENSION_CONFIGS → k ≠ EXTENSIONS → od_get k md' = od_get k md) ∧
    config_names σ' 0%nat = config_names sample_store 0%nat.
Proof.
  apply (init_writes_only_extensions sample_store 0%nat).
  exists [(MARKDOWN, 1%nat)], 1%nat,
    [(EXTENSION_CONFIGS, 2%nat); (codes "output_format", 3%nat)].
  split_and!.
  - vm_compute. reflexivity.
  - vm_compute. reflexivity.
  - discriminate.
  - vm_compute. reflexivity.
  - intros c Hc. vm_compute in Hc. injection Hc as <-. split; [discriminate|].
    exists [(codes "markdown.extensions.codehilite", 4%nat)].
    vm_compute. reflexivity.
  - intros e' He'. vm_compute in He'. discriminate He'.
Defined.

(** X20: what the caller finds in the list of extensions after the
    construction: the list it had, extended at the end only; the meta
    extension and every name that has a configuration are in it; nothing
    else was added, and no name was added twice. *)
Theorem init_extension_list (σ : store) r :
  settings_ok σ r →
  ∃ σ' l',
    __init__ r σ = (Ok {| settings := r |}, σ') ∧
    markdown_entry σ' r EXTENSIONS = Some (OList l') ∧
    extension_list σ r `prefix_of` l' ∧
    META ∈ l' ∧
    (∀ name, name ∈ config_names σ r → name ∈ l') ∧
    (∀ x, x ∈ l' → x = META ∨ x ∈ config_names σ r ∨ x ∈ extension_list σ r) ∧
    (NoDup (extension_list σ r) → NoDup l').
Proof.
  intros Hok.
  destruct (init_result σ r Hok)
    as (σ' & top & m & md & md' & c & cfgs & e & Hrun & Hr & Hr' & Htop & Hmr & Hm & Hm'
        & Hc & Hcm & Hcfgs & Hnames & He & Hl & _ & _).
  destruct (init_result_entries σ σ' r top m md' c cfgs e _ Hr' Htop Hm' Hc Hcfgs He Hl)
    as (_ & Hentry & _ & _).
  exists σ', (normalize_extensions (config_names σ r) (extension_list σ r)).
  assert (∀ y, y ∈ normalize_extensions (config_names σ r) (extension_list σ r) ↔
               y = META ∨ y ∈ config_names σ r ∨ y ∈ extension_list σ r) as HN.
  { intros y. unfold normalize_extensions.
    by rewrite add_missing_elem, fold_add_missing_elem. }
  split_and!; try done.
  - unfold normalize_extensions.
    etrans; [apply fold_add_missing_prefix|apply add_missing_prefix].
  - apply HN. by left.
  - intros name Hname. apply HN. right. by left.
  - intros x Hx. by apply HN.
  - intros Hnd. unfold normalize_extensions.
    by apply add_missing_NoDup, fold_add_missing_NoDup.
Qed.

Lemma init_extension_list_witness :
  ∃ σ' l',
    __init__ 0%nat normal_store = (Ok {| settings := 0%nat |}, σ') ∧
    markdown_entry σ' 0%nat EXTENSIONS = Some (OList l') ∧
    extension_list normal_store 0%nat `prefix_of` l' ∧
    META ∈ l' ∧
    (∀ name, name ∈ config_names normal_store 0%nat → name ∈ l') ∧
    (∀ x, x ∈ l' → x = META ∨ x ∈ config_names normal_store 0%nat
                   ∨ x ∈ extension_list normal_store 0%nat) ∧
    (NoDup (extension_list normal_store 0%nat) → NoDup l').
Proof.
  apply (init_extension_list normal_store 0%nat).
  exists [(MARKDOWN, 1%nat)], 1%nat,
    [(EXTENSION_CONFIGS, 2%nat); (EXTENSIONS, 3%nat)].
  split_and!.
  - vm_compute. reflexivity.
  - vm_compute. reflexivity.
  - discriminate.
  - vm_compute. reflexivity.
  - intros c Hc. vm_compute in Hc. injection Hc as <-. split; [discriminate|].
    exists [(codes "markdown.extensions.codehilite", 4%nat)].
    vm_compute. reflexivity.
  - intros e He. vm_compute in He. injection He as <-.
    exists [codes "markdown.extensions.codehilite"; META].
    vm_compute. reflexivity.
Defined.

(** ** Registration with pelican, empty documents *)

(** X21: [add_reader] makes [FrontmarkReader] the reader of the [md]
    extension, in place of any reader registered for it, and leaves the
    readers of all other extensions as they were; calling it again
    changes nothing. *)
Theorem add_reader_registers_md (classes : gmap str reader_class) :
  add_reader classes !! codes "md" = Some FrontmarkReaderClass ∧
  (∀ ext, ext ≠ codes "md" → add_reader classes !! ext = classes !! ext) ∧
  add_reader (add_reader classes) = add_reader classes.
Proof.
  unfold add_reader, file_extensions. simpl. split_and!.
  - by rewrite lookup_insert_eq.
  - intros ext Hext. by rewrite lookup_insert_ne.
  - by rewrite insert_insert_eq.
Qed.

(** X22: a document that is empty or made of white space only has no
    metadata; its body is what the renderer makes of the empty text. *)
Theorem read_blank_document host text :
  Forall (λ c, is_space c = true) text →
  _parse host text = Ok ([], []) ∧
  read host text = Ok (strip (convert host []), []).
Proof.
  intros Hblank.
  assert (strip text = []) as Hstrip.
  { pose proof (strip_padding text [] [] Hblank (Forall_nil_2 _)) as Hpad.
    simpl in Hpad. by rewrite app_nil_r in Hpad. }
  assert (_parse host text = Ok ([], [])) as Hparse.
  { unfold _parse. by rewrite Hstrip. }
  split; [done|]. unfold read. by rewrite Hparse.
Qed.

Lemma read_blank_document_witness :
  read (sample_host [] None) [32; 10; 9; 10] = Ok (codes "<p></p>", []).
Proof.
  apply (read_blank_document (sample_host [] None) [32; 10; 9; 10]).
  repeat constructor.
Defined.
